(** * MSH (M SHell): a shallow embedding of [msh.c] and its properties

    The development follows the pipe-capable revision of the shell
    (functions [msh_pipe], [msh_launch], [msh_execute], [msh_split_line],
    [msh_read_line], [msh_loop] and the four builtins).

    Modelling conventions.
    - A [char*] is an offset into a byte buffer ([list ascii]); a C string
      is the run of bytes from the offset up to the first NUL.  The libc
      primitives the shell calls ([strtok], [strtok_r], [strchr], [strcpy],
      [strcat], [strcmp]) are written out with their ISO C / POSIX
      behaviour, including the destructive NUL that [strtok] stores.
    - A [char**] argument vector is the list of its strings; the NULL that
      ends the vector is the end of the list, so [args[i] == NULL] reads
      [args !! i = None].
    - A process is a function from a world (the kernel's forthcoming
      answers, the working directory, the actions performed so far) to an
      outcome and a new world.  [fork] returns what the kernel answers, so a
      run follows one process: answer [0] follows the child.
    - Standard input is the list of the complete lines still to come; what
      the launched programs do, and read, is outside the model.
    - [status] in [msh_loop] is read before it is assigned: the value it
      happens to hold is a parameter of the loop.
    - Allocation ([malloc], [realloc]) is taken to succeed in the
      tokenizer; in [msh_read_line] the allocator is a parameter, and
      [bufsize] and [position] are [int]: a sum that leaves the range of
      [int] is undefined. *)

From stdpp Require Import base list strings.
From Stdlib Require Import Ascii ZArith Lia Sorted.
From Stdlib Require String.

Local Open Scope Z_scope.
Local Open Scope nat_scope.

(** ** C strings in a byte buffer *)

Definition NUL : ascii := "000"%char.

Abbreviation buffer := (list ascii).
Abbreviation ptr := nat.

(** [*p].  Every buffer of the shell ends with NUL and no primitive reads
    past it; a read outside the list yields NUL. *)
Definition deref (m : buffer) (p : ptr) : ascii :=
  match m !! p with Some c => c | None => NUL end.

Fixpoint cstr_of (l : list ascii) : list ascii :=
  match l with
  | [] => []
  | c :: l' => if decide (c = NUL) then [] else c :: cstr_of l'
  end.

(** The C string that starts at [p]. *)
Definition cstr (m : buffer) (p : ptr) : list ascii := cstr_of (drop p m).

(** What may follow a C string in its buffer: its NUL, or nothing when the
    buffer stops there. *)
Definition nul_or_end (rest : list ascii) : Prop :=
  match rest with [] => True | c :: _ => c = NUL end.

Definition cstring (m : buffer) (p : ptr) : string :=
  String.string_of_list_ascii (cstr m p).

(** [strspn(s, accept)]: length of the initial run of [s] made of bytes of
    [accept]. *)
Fixpoint strspn (s accept : list ascii) : nat :=
  match s with
  | [] => 0
  | c :: s' => if decide (c ∈ accept) then S (strspn s' accept) else 0
  end.

(** [strcspn(s, reject)]: length of the initial run of [s] free of bytes of
    [reject]. *)
Fixpoint strcspn (s reject : list ascii) : nat :=
  match s with
  | [] => 0
  | c :: s' => if decide (c ∈ reject) then 0 else S (strcspn s' reject)
  end.

(** [strchr(s, c) != NULL] for a byte [c] other than NUL. *)
Definition strchr (m : buffer) (s : ptr) (c : ascii) : bool :=
  bool_decide (c ∈ cstr m s).

(** [strtok_r(s, delim, &save)] with [s] not NULL: skip the leading
    delimiters; at the end of the string there is no token; otherwise the
    token runs to the next delimiter, which is overwritten with NUL, and
    the saved pointer is left just after it (or on the final NUL).
    Result: the token (or NULL), the saved pointer, the buffer. *)
Definition strtok_r (m : buffer) (s : ptr) (delim : list ascii)
  : option ptr * ptr * buffer :=
  let s := s + strspn (cstr m s) delim in
  if decide (deref m s = NUL) then (None, s, m)
  else
    let e := s + strcspn (cstr m s) delim in
    if decide (deref m e = NUL) then (Some s, e, m)
    else (Some s, S e, <[e := NUL]> m).

(** [strtok(s, delim)]: [strtok_r] on a static saved pointer [olds];
    [s = NULL] continues from it. *)
Definition strtok (m : buffer) (s : option ptr) (delim : list ascii)
  (olds : ptr) : option ptr * ptr * buffer :=
  strtok_r m (match s with Some p => p | None => olds end) delim.

(** ** Tokenizer *)

(** [MSH_TOK_DELIM " \t\r\n\a"] *)
Definition MSH_TOK_DELIM : list ascii :=
  [" "; "009"; "013"; "010"; "007"]%char.

(** The [while (token != NULL)] loop of [msh_split_line]: [tokens] is the
    array filled so far ([position] is its length). *)
Fixpoint msh_split_line_loop (fuel : nat) (m : buffer) (olds : ptr)
  (token : option ptr) (tokens : list (option ptr))
  : option (list (option ptr) * buffer) :=
  match token with
  | None => Some (tokens ++ [None], m)
  | Some t =>
      match fuel with
      | 0 => None
      | S fuel' =>
          let '(token', olds', m') := strtok m None MSH_TOK_DELIM olds in
          msh_split_line_loop fuel' m' olds' token' (tokens ++ [Some t])
      end
  end.

(** [msh_split_line(line)]: the array of token pointers, ended by NULL,
    and the buffer as [strtok] leaves it.  [None] only if the loop is cut
    short by the fuel, which [length m] never does
    (see [msh_split_line_spec]). *)
Definition msh_split_line (m : buffer) (line : ptr)
  : option (list (option ptr) * buffer) :=
  let '(token, olds, m') := strtok m (Some line) MSH_TOK_DELIM 0 in
  msh_split_line_loop (length m) m' olds token [].

(** Reading a NULL-terminated [char**] as the list of its strings. *)
Fixpoint argv_of (m : buffer) (tokens : list (option ptr)) : list string :=
  match tokens with
  | Some t :: tokens' => cstring m t :: argv_of m tokens'
  | _ => []
  end.

Definition line_buffer (s : string) : buffer :=
  String.list_ascii_of_string s ++ [NUL].

(** ** Processes and the kernel *)

(** The descriptors the shell names: the standard ones and the two ends
    [fd[0]] (read) and [fd[1]] (write) that [pipe] fills in. *)
Inductive fd := STDIN_FILENO | STDOUT_FILENO | fd_0 | fd_1.

Inductive event :=
| EStdout (s : string)
| EStderr (s : string)
| EPerror (s : string)
| EPipe (r : Z)
| EFork (r : Z)
| EClose (d : fd)
| EDup2 (d d' : fd)
| EExec (file : string) (argv : list string) (r : Z)
| EWaitpid (pid options status : Z)
| EChdir (path : string) (r : Z).

(** [kernel]: what the kernel answers to the coming [pipe], [fork], [exec]
    and [waitpid] calls, in call order (once used up, every call answers
    [0]).  [dirs cwd path]: the directory [chdir(path)] reaches from [cwd],
    if any.  [trace]: the actions performed so far. *)
Record world := World {
  kernel : list Z;
  dirs : string → string → option string;
  cwd : string;
  trace : list event
}.

Inductive outcome (A : Type) :=
| Ret (a : A)                                (* the function returns *)
| Exit (code : Z)                            (* [exit(code)] *)
| Image (file : string) (argv : list string) (* a successful [exec] *)
| Undef                                      (* undefined behaviour *)
| Fuel.                                      (* a loop of the model cut short;
                                                never met, see [msh_loop_total] *)
Arguments Ret {A} a.
Arguments Exit {A} code.
Arguments Image {A} file argv.
Arguments Undef {A}.
Arguments Fuel {A}.

Definition M (A : Type) : Type := world → outcome A * world.

Definition ret {A} (a : A) : M A := λ w, (Ret a, w).

Definition bind {A B} (c : M A) (k : A → M B) : M B := λ w,
  match c w with
  | (Ret a, w') => k a w'
  | (Exit code, w') => (Exit code, w')
  | (Image file argv, w') => (Image file argv, w')
  | (Undef, w') => (Undef, w')
  | (Fuel, w') => (Fuel, w')
  end.

Notation "x <- c ;; k" := (bind c (λ x, k))
  (at level 100, c at next level, right associativity).
Notation "c ;; k" := (bind c (λ _, k))
  (at level 100, right associativity).

Definition undef {A} : M A := λ w, (Undef, w).
Definition out_of_fuel {A} : M A := λ w, (Fuel, w).

(** A pure step that is undefined behaviour when it has no value. *)
Definition defined {A} (o : option A) : M A :=
  match o with Some a => ret a | None => undef end.

(** [total c]: [c] never stops for lack of fuel. *)
Definition total {A} (c : M A) : Prop := ∀ w, (c w).1 ≠ Fuel.

Definition emit (e : event) (w : world) : world :=
  World (kernel w) (dirs w) (cwd w) (trace w ++ [e]).

Definition log (e : event) : M unit := λ w, (Ret tt, emit e w).

(** The kernel's answer to the call being made. *)
Definition answer : M Z := λ w,
  match kernel w with
  | [] => (Ret 0%Z, w)
  | r :: k => (Ret r, World k (dirs w) (cwd w) (trace w))
  end.

Definition EXIT_SUCCESS : Z := 0.
Definition EXIT_FAILURE : Z := 1.
Definition WUNTRACED : Z := 2.

Definition exit {A} (code : Z) : M A := λ w, (Exit code, w).
Definition printf (s : string) : M unit := log (EStdout s).
Definition fprintf_stderr (s : string) : M unit := log (EStderr s).
Definition perror (s : string) : M unit := log (EPerror s).

(** [pipe(fd)]: [0], or [-1] with no descriptor created. *)
Definition pipe : M Z := r <- answer ;; log (EPipe r) ;; ret r.
(** [fork()]: [0] in the child, the child's pid in the parent, negative on
    failure. *)
Definition fork : M Z := r <- answer ;; log (EFork r) ;; ret r.
Definition close (d : fd) : M unit := log (EClose d).
Definition dup2 (d d' : fd) : M unit := log (EDup2 d d').

(** [execlp] and [execvp]: on answer [0] the image is replaced and the call
    does not return; on any other answer the call fails and returns [-1]. *)
Definition exec (file : string) (argv : list string) : M Z :=
  r <- answer ;;
  if decide (r = 0%Z) then (λ w, (Image file argv, emit (EExec file argv 0) w))
  else log (EExec file argv (-1)) ;; ret (-1)%Z.
Definition execlp := exec.
Definition execvp := exec.

(** [waitpid(pid, &status, options)]: the answer is the status word. *)
Definition waitpid (pid options : Z) : M Z :=
  status <- answer ;; log (EWaitpid pid options status) ;; ret status.

(** The status macros of [<sys/wait.h>] (glibc's encoding). *)
Definition signed_char (x : Z) : Z :=
  let b := (x mod 256)%Z in if (b <? 128)%Z then b else (b - 256)%Z.
Definition WIFEXITED (status : Z) : bool := (Z.land status 127 =? 0)%Z.
Definition WIFSIGNALED (status : Z) : bool :=
  (0 <? Z.shiftr (signed_char (Z.land status 127 + 1)) 1)%Z.

Definition chdir (path : string) : M Z := λ w,
  match dirs w (cwd w) path with
  | Some d => (Ret 0%Z, emit (EChdir path 0) (World (kernel w) (dirs w) d (trace w)))
  | None => (Ret (-1)%Z, emit (EChdir path (-1)) w)
  end.

(** [getcwd(buf, size)]: the working directory, or NULL when it does not
    fit in [size] bytes. *)
Definition getcwd (size : nat) : M (option string) := λ w,
  (Ret (if decide (String.length (cwd w) < size) then Some (cwd w) else None), w).

(** ** Strings in fixed arrays *)

(** [strcpy] and [strcat] into a [char[cap]]: writing past the array is
    undefined. *)
Definition strcpy (cap : nat) (src : string) : option string :=
  if decide (String.length src < cap) then Some src else None.
Definition strcat (cap : nat) (dst src : string) : option string :=
  if decide (String.length dst + String.length src < cap) then Some (dst +:+ src)
  else None.

Definition LF : string := String "010" EmptyString.
Definition DQUOTE : string := String "034" EmptyString.

(** ** Builtins *)

Definition builtin_str : list string := ["cd"; "help"; "exit"; "pwd"].

(** The number of rows of [builtin_str]; the loops over the table below
    run over its rows. *)
Definition msh_num_builtins : nat := length builtin_str.

Definition MSH_DIRECT_MAX : nat := 260.

Definition msh_pwd (args : list string) : M Z :=
  r <- getcwd MSH_DIRECT_MAX ;;
  match r with
  | Some d => printf ("Current working dir: " +:+ d +:+ LF)
  | None => perror "cwd error"
  end ;;
  ret 1%Z.

Definition cd_usage : string :=
  "msh: expected argument to " +:+ DQUOTE +:+ "cd" +:+ DQUOTE +:+ LF.

Definition msh_cd (args : list string) : M Z :=
  match args !! 1 with
  | None => fprintf_stderr cd_usage
  | Some d =>
      r <- chdir d ;;
      if decide (r ≠ 0%Z) then perror "msh" else ret tt
  end ;;
  ret 1%Z.

Fixpoint msh_help_for (names : list string) : M unit :=
  match names with
  | [] => ret tt
  | name :: names' => printf ("  " +:+ name +:+ LF) ;; msh_help_for names'
  end.

Definition msh_help (args : list string) : M Z :=
  printf ("Group 11's MSH" +:+ LF) ;;
  printf ("Type program names and arguments, and hit enter." +:+ LF) ;;
  printf ("The following are built in:" +:+ LF) ;;
  msh_help_for builtin_str ;;
  printf ("Use the man command for information on other programs." +:+ LF) ;;
  ret 1%Z.

Definition msh_exit (args : list string) : M Z := ret 0%Z.

Definition builtin_func : list (list string → M Z) :=
  [msh_cd; msh_help; msh_exit; msh_pwd].

(** ** Pipeline launcher *)

(** Size of [inputArgs], [inputArgsV], [outputArgs], [outputArgsV]. *)
Definition ARGS_SIZE : nat := 1024.

(** The body shared by the two joining loops: the first argument replaces
    the initial ["\n"], the later ones are appended after a space. *)
Definition msh_pipe_join (v a : string) : option string :=
  if decide (v = LF) then strcpy ARGS_SIZE a
  else v' ← strcat ARGS_SIZE v " "; strcat ARGS_SIZE v' a.

(** [for (i = 1; args[i] != NULL && strcmp(args[i], "|") != 0; i++)],
    on [args] from index [i] on. *)
Fixpoint msh_pipe_input_loop (args : list string) (inputArgsV : string)
  : option string :=
  match args with
  | [] => Some inputArgsV
  | a :: args' =>
      if decide (a = "|") then Some inputArgsV
      else v ← msh_pipe_join inputArgsV a; msh_pipe_input_loop args' v
  end.

(** [for (i = 1; args[i] != NULL; i++) if (strcmp(args[i], "|") == 0)
    pipeLoc = i;], on [args] from index [i] on. *)
Fixpoint msh_pipe_find_loop (args : list string) (i pipeLoc : Z) : Z :=
  match args with
  | [] => pipeLoc
  | a :: args' =>
      msh_pipe_find_loop args' (i + 1)%Z (if decide (a = "|") then i else pipeLoc)
  end.

(** [for (i = pipeLoc + 1; args[i] != NULL; i++)], on [args] from index [i]
    on. *)
Fixpoint msh_pipe_output_loop (args : list string) (outputArgsV : string)
  : option string :=
  match args with
  | [] => Some outputArgsV
  | a :: args' => v ← msh_pipe_join outputArgsV a; msh_pipe_output_loop args' v
  end.

(** The first half of [msh_pipe], up to the [pipe] call: the four arrays
    [(inputArgs, inputArgsV, outputArgs, outputArgsV)].  No value when a
    [strcpy] reads NULL or a string does not fit its array. *)
Definition msh_pipe_args (args : list string)
  : option (string * string * string * string) :=
  inputArgs ← (a ← args !! 0; strcpy ARGS_SIZE a);
  inputArgsV ← msh_pipe_input_loop (drop 1 args) LF;
  let pipeLoc := msh_pipe_find_loop (drop 1 args) 1 (-1) in
  let pipeLoc := (pipeLoc + 1)%Z in
  outputArgs ← (a ← args !! Z.to_nat pipeLoc; strcpy ARGS_SIZE a);
  outputArgsV ← msh_pipe_output_loop (drop (Z.to_nat (pipeLoc + 1)) args) LF;
  Some (inputArgs, inputArgsV, outputArgs, outputArgsV).

(** The [execlp] of one side: without the extra argument while the joined
    string is still the initial ["\n"]. *)
Definition msh_pipe_exec (file v : string) : M Z :=
  if decide (v = LF) then execlp file [file] else execlp file [file; v].

Definition msh_pipe (args : list string) : M Z :=
  arrays <- defined (msh_pipe_args args) ;;
  let '(inputArgs, inputArgsV, outputArgs, outputArgsV) := arrays in
  r <- pipe ;;
  if decide (r ≠ 0%Z) then
    perror ("Pipe error" +:+ LF) ;;
    ret 0%Z
  else
    pid1 <- fork ;;
    (if decide (pid1 = 0%Z) then
       close fd_1 ;;
       dup2 fd_0 STDIN_FILENO ;;
       close fd_0 ;;
       msh_pipe_exec outputArgs outputArgsV ;;
       ret tt
     else
       pid2 <- fork ;;
       (if decide (pid2 = 0%Z) then
          close fd_0 ;;
          dup2 fd_1 STDOUT_FILENO ;;
          close fd_1 ;;
          msh_pipe_exec inputArgs inputArgsV ;;
          ret tt
        else ret tt) ;;
       close fd_1 ;;
       close fd_0 ;;
       waitpid (-1) 0 ;;
       waitpid (-1) 0 ;;
       ret tt) ;;
    ret 1%Z.

(** ** External launcher *)

(** [do { waitpid(pid, &status, WUNTRACED); } while (!WIFEXITED(status) &&
    !WIFSIGNALED(status));] *)
Fixpoint msh_launch_wait (fuel : nat) (pid : Z) : M unit :=
  match fuel with
  | 0 => out_of_fuel
  | S fuel' =>
      status <- waitpid pid WUNTRACED ;;
      if negb (WIFEXITED status) && negb (WIFSIGNALED status)
      then msh_launch_wait fuel' pid
      else ret tt
  end.

Definition msh_launch (args : list string) : M Z :=
  pid <- fork ;;
  (if decide (pid = 0%Z) then
     file <- defined (args !! 0) ;;
     r <- execvp file args ;;
     (if decide (r = (-1)%Z) then perror "msh" else ret tt) ;;
     exit EXIT_FAILURE
   else if decide (pid < 0)%Z then
     perror "msh"
   else
     λ w, msh_launch_wait (S (length (kernel w))) pid w) ;;
  ret 1%Z.

(** ** Dispatcher *)

(** [for (i = 0; i < msh_num_builtins(); i++)] over the rows of the builtin
    table from row [i] on; after the last row, [msh_launch]. *)
Fixpoint msh_execute_for (names : list string) (funcs : list (list string → M Z))
  (args : list string) (arg0 : string) : M Z :=
  match names, funcs with
  | name :: names', func :: funcs' =>
      if decide (arg0 = name) then func args
      else msh_execute_for names' funcs' args arg0
  | _, _ => msh_launch args
  end.

Definition msh_execute (args : list string) : M Z :=
  match args !! 0 with
  | None => ret 1%Z
  | Some arg0 => msh_execute_for builtin_str builtin_func args arg0
  end.

(** ** The read-eval loop *)

(** The body of the [while] loop of [msh_loop] for the segment [token]:
    the new [status] and the buffer as the tokenizer leaves it. *)
Definition msh_loop_body (m : buffer) (tempLine token : ptr) : M (Z * buffer) :=
  let flag := strchr m tempLine "|" in
  let token := if flag then tempLine else token in
  match msh_split_line m token with
  | None => out_of_fuel
  | Some (tokens, m') =>
      let args := argv_of m' tokens in
      status <- (if flag then msh_pipe args else msh_execute args) ;;
      ret (status, m')
  end.

(** [while ((token = strtok_r(line, "&", &line)) && status) { ... }] *)
Fixpoint msh_loop_segments (fuel : nat) (m : buffer) (line tempLine : ptr)
  (status : Z) : M Z :=
  match fuel with
  | 0 => out_of_fuel
  | S fuel' =>
      let '(token, line', m1) := strtok_r m line ["&"%char] in
      match token with
      | None => ret status
      | Some token =>
          if decide (status = 0%Z) then ret status
          else
            r <- msh_loop_body m1 tempLine token ;;
            msh_loop_segments fuel' r.2 line' tempLine r.1
      end
  end.

(** [msh_loop], started with [status] holding the value [status] (the C
    variable is not initialised).  [stdin] lists the lines still to come on
    standard input, each without its newline; [msh_read_line] returns the
    next one NUL-terminated, or exits with [EXIT_SUCCESS] at end of input. *)
Fixpoint msh_loop (stdin : list string) (status : Z) : M unit :=
  printf "$ " ;;
  match stdin with
  | [] => exit EXIT_SUCCESS
  | l :: stdin' =>
      let m := line_buffer l in
      status' <- msh_loop_segments (length m) m 0 0 status ;;
      if decide (status' = 0%Z) then ret tt else msh_loop stdin' status'
  end.

(** ** Specification of the tokenizer *)

Definition is_delim (c : ascii) : Prop := c ∈ MSH_TOK_DELIM.

(** [tokens_of s ts]: [ts] lists, in order, the maximal runs of [s] free of
    delimiters.  Each run is non-empty, starts after a (possibly empty) run
    of delimiters [d] and stops at the end of [s] or at a delimiter [c]. *)
Inductive tokens_of : list ascii → list (list ascii) → Prop :=
| tokens_none d :
    Forall is_delim d → tokens_of d []
| tokens_last d t :
    Forall is_delim d → t ≠ [] → Forall (λ c, ¬ is_delim c) t →
    tokens_of (d ++ t) [t]
| tokens_next d t c r ts :
    Forall is_delim d → t ≠ [] → Forall (λ c, ¬ is_delim c) t →
    is_delim c → tokens_of r ts →
    tokens_of (d ++ t ++ c :: r) (t :: ts).

(** The same sequence, computed: [runs s cur] scans [s] with the run
    [cur] read so far; a delimiter closes a non-empty run. *)
Fixpoint runs (s cur : list ascii) : list (list ascii) :=
  match s with
  | [] => match cur with [] => [] | _ => [cur] end
  | c :: s' =>
      if decide (c ∈ MSH_TOK_DELIM)
      then match cur with [] => runs s' [] | _ => cur :: runs s' [] end
      else runs s' (cur ++ [c])
  end.

(** The line of the example in the specification, NUL-terminated:
    two spaces, [ls], three spaces, [-l], a tab, [/tmp], a newline. *)
Definition example_line : buffer :=
  String.list_ascii_of_string "  ls   -l" ++ ["009"%char]
  ++ String.list_ascii_of_string "/tmp" ++ ["010"%char; NUL].

(** ** Specification of the pipeline sides *)

(** The space-separated join of a list of tokens. *)
Fixpoint join_rest (l : list string) : string :=
  match l with
  | [] => ""
  | a :: l' => " " +:+ a +:+ join_rest l'
  end.

Definition join (l : list string) : string :=
  match l with
  | [] => ""
  | a :: l' => a +:+ join_rest l'
  end.

(** The extra arguments of a side whose tokens after the program name are
    [l]: none, or the single joined one. *)
Definition extra (l : list string) : list string :=
  match l with [] => [] | _ => [join l] end.

(** What the joining loops leave in [inputArgsV] / [outputArgsV]. *)
Definition joined (l : list string) : string :=
  match l with [] => LF | _ => join l end.

(** The partition the specification describes: the tokens before and after
    the last ["|"] of the token stream. *)
Fixpoint split_last_marker (args : list string)
  : option (list string * list string) :=
  match args with
  | [] => None
  | a :: args' =>
      match split_last_marker args' with
      | Some (before, after) => Some (a :: before, after)
      | None => if decide (a = "|") then Some ([], args') else None
      end
  end.

(** A side run as its first token plus the joined rest: the file and the
    argument vector of its [exec]. *)
Definition spec_command (side : list string) : option (string * list string) :=
  match side with
  | [] => None
  | prog :: rest => Some (prog, prog :: extra rest)
  end.

(** The argument vector [execlp] receives for a side. *)
Definition side_argv (file v : string) : list string :=
  if decide (v = LF) then [file] else [file; v].

(** A world for examples: the kernel answers [k], no directory can be
    entered, the working directory is [/]. *)
Definition w0 (k : list Z) : world := World k (λ _ _, None) "/" [].

(** The program a side of the pipeline becomes when every call succeeds:
    the consumer is the child of the first [fork], the producer the child of
    the second. *)
Definition consumer_image (args : list string) : outcome Z :=
  (msh_pipe args (w0 [0; 0; 0]%Z)).1.
Definition producer_image (args : list string) : outcome Z :=
  (msh_pipe args (w0 [0; 1; 0; 0]%Z)).1.

(** A token of [n] bytes [c], and a line the shell can read whose
    producer side has two tokens of 600 bytes each. *)
Definition long_token (n : nat) (c : ascii) : string :=
  String.string_of_list_ascii (replicate n c).
Definition long_line : string :=
  "ls " +:+ long_token 600 "a" +:+ " " +:+ long_token 600 "b" +:+ " | wc".

(** The partition as the specification states it: both sides are cut at
    the last marker. *)
Definition last_marker_partition (args : list string) : Prop :=
  ∀ before after prod cons,
    split_last_marker args = Some (before, after) →
    spec_command before = Some prod → spec_command after = Some cons →
    producer_image args = Image prod.1 prod.2
    ∧ consumer_image args = Image cons.1 cons.2.

(** ** Reading a line *)

(** [MSH_RL_BUFSIZE 1024] *)
Definition MSH_RL_BUFSIZE : Z := 1024.

(** The range of [int], the type of [bufsize] and [position]. *)
Definition INT_MAX : Z := 2147483647.
Definition INT_MIN : Z := -2147483648.

(** [a + b] on [int]: undefined when the sum leaves the range. *)
Definition int_add (a b : Z) : option Z :=
  if decide (INT_MIN ≤ a + b ≤ INT_MAX)%Z then Some (a + b)%Z else None.

(** [buffer[position] = c] in an allocation of [bufsize] bytes of which the
    first [position] are written: undefined outside the allocation. *)
Definition store (bufsize : Z) (buffer : list ascii) (position : Z) (c : ascii)
  : option (list ascii) :=
  if decide (0 ≤ position < bufsize)%Z
  then Some (take (Z.to_nat position) buffer ++ [c]) else None.

Definition allocation_error : string := "msh: allocation error" +:+ LF.

(** The [while (1)] loop of [msh_read_line] on the bytes [stdin] still to
    come ([getchar] returns [EOF] when there is none): the buffer and the
    bytes left, or [exit(EXIT_SUCCESS)] at end of input.  [alloc n] tells
    whether the allocator grants a block of [n] bytes. *)
Fixpoint msh_read_line_loop (alloc : Z → bool) (stdin : list ascii)
  (bufsize position : Z) (buffer : list ascii) : M (list ascii * list ascii) :=
  match stdin with
  | [] => exit EXIT_SUCCESS
  | c :: stdin' =>
      if decide (c = "010"%char) then
        buffer <- defined (store bufsize buffer position NUL) ;;
        ret (buffer, stdin')
      else
        buffer <- defined (store bufsize buffer position c) ;;
        position <- defined (int_add position 1) ;;
        if decide (bufsize ≤ position)%Z then
          bufsize <- defined (int_add bufsize MSH_RL_BUFSIZE) ;;
          if alloc bufsize
          then msh_read_line_loop alloc stdin' bufsize position buffer
          else fprintf_stderr allocation_error ;; exit EXIT_FAILURE
        else msh_read_line_loop alloc stdin' bufsize position buffer
  end.

Definition msh_read_line (alloc : Z → bool) (stdin : list ascii)
  : M (list ascii * list ascii) :=
  if alloc MSH_RL_BUFSIZE
  then msh_read_line_loop alloc stdin MSH_RL_BUFSIZE 0 []
  else fprintf_stderr allocation_error ;; exit EXIT_FAILURE.

(** The line being read: the bytes of [stdin] before its first newline, all
    of them when there is none. *)
Fixpoint pending (stdin : list ascii) : list ascii :=
  match stdin with
  | [] => []
  | c :: stdin' => if decide (c = "010"%char) then [] else c :: pending stdin'
  end.

(** An allocator that grants every block of at most [n] bytes. *)
Definition grants (alloc : Z → bool) (n : Z) : Prop :=
  ∀ size, (size ≤ n)%Z → alloc size = true.

(** ** Vocabulary of the further properties *)

(** The status words on which the wait loop of [msh_launch] goes round
    again: the child is stopped, neither exited nor killed. *)
Definition stopped (status : Z) : Prop := Z.land status 127 = 127%Z.

(** The events of a run that name the kernel's process and pipe calls. *)
Definition process_event (e : event) : bool :=
  match e with
  | EPipe _ | EFork _ | EExec _ _ _ | EWaitpid _ _ _ | EClose _ | EDup2 _ _ => true
  | _ => false
  end.

(** A run that stays inside the shell: it returns [r], asks the kernel
    nothing and adds only output events [evs]. *)
Definition in_process (c : M Z) (w : world) (r : Z) : Prop :=
  ∃ w' evs, c w = (Ret r, w') ∧ kernel w' = kernel w ∧ dirs w' = dirs w
            ∧ trace w' = trace w ++ evs
            ∧ Forall (λ e, process_event e = false) evs.

(** * Properties *)

(** ** C strings *)

Lemma cstr_of_app (s rest : list ascii) :
  NUL ∉ s → nul_or_end rest → cstr_of (s ++ rest) = s.
Proof.
  induction s as [|c s IH]; simpl; intros Hs Hr.
  - destruct rest as [|c r]; simpl in *; [done|]. by rewrite decide_True.
  - apply not_elem_of_cons in Hs as [Hc Hs].
    rewrite decide_False by done. by rewrite IH.
Qed.

Lemma cstr_of_split (l : list ascii) :
  ∃ rest, l = cstr_of l ++ rest ∧ (NUL ∉ cstr_of l) ∧ nul_or_end rest.
Proof.
  induction l as [|c l (rest & Hl & Hn & Hr)]; simpl.
  - exists []. split_and!; [done| |done]. apply not_elem_of_nil.
  - destruct (decide (c = NUL)) as [->|Hc].
    + exists (NUL :: l). split_and!; [done| |done]. apply not_elem_of_nil.
    + exists rest. split_and!; [simpl; by f_equal| |done].
      apply not_elem_of_cons. done.
Qed.

Lemma cstr_at (pre s rest : list ascii) :
  NUL ∉ s → nul_or_end rest → cstr (pre ++ s ++ rest) (length pre) = s.
Proof.
  intros. unfold cstr. rewrite drop_app_length. by apply cstr_of_app.
Qed.

Lemma deref_at_end (pre rest : list ascii) :
  nul_or_end rest → deref (pre ++ rest) (length pre) = NUL.
Proof.
  intros Hr. unfold deref. destruct rest as [|c r]; simpl in Hr.
  - rewrite app_nil_r, lookup_ge_None_2; [done|lia].
  - by rewrite list_lookup_middle.
Qed.

Lemma deref_at (pre : list ascii) (c : ascii) (r : list ascii) :
  deref (pre ++ c :: r) (length pre) = c.
Proof. unfold deref. by rewrite list_lookup_middle. Qed.

Lemma strspn_split (s accept : list ascii) :
  ∃ d s1, s = d ++ s1 ∧ Forall (λ c, c ∈ accept) d
          ∧ match s1 with [] => True | c :: _ => c ∉ accept end
          ∧ strspn s accept = length d.
Proof.
  induction s as [|c s (d & s1 & -> & Hd & Hs1 & Hn)]; simpl.
  - by exists [], [].
  - destruct (decide (c ∈ accept)) as [Hc|Hc].
    + exists (c :: d), s1. split_and!; [done|by constructor|done|simpl; by rewrite Hn].
    + by exists [], (c :: d ++ s1).
Qed.

Lemma strcspn_split (s reject : list ascii) :
  ∃ t r, s = t ++ r ∧ Forall (λ c, c ∉ reject) t
         ∧ match r with [] => True | c :: _ => c ∈ reject end
         ∧ strcspn s reject = length t.
Proof.
  induction s as [|c s (t & r & -> & Ht & Hr & Hn)]; simpl.
  - by exists [], [].
  - destruct (decide (c ∈ reject)) as [Hc|Hc].
    + by exists [], (c :: t ++ r).
    + exists (c :: t), r. split_and!; [done|by constructor|done|simpl; by rewrite Hn].
Qed.

Lemma insert_at (pre : list ascii) (c x : ascii) (r : list ascii) :
  <[length pre := x]> (pre ++ c :: r) = pre ++ x :: r.
Proof. rewrite insert_app_r_alt by lia. by rewrite Nat.sub_diag. Qed.

Lemma strtok_r_at_end (pre rest delim : list ascii) :
  nul_or_end rest →
  strtok_r (pre ++ rest) (length pre) delim = (None, length pre, pre ++ rest).
Proof.
  intros Hr. unfold strtok_r.
  replace (cstr (pre ++ rest) (length pre)) with (@nil ascii).
  - simpl. rewrite Nat.add_0_r, deref_at_end by done. by rewrite decide_True.
  - symmetry. apply (cstr_at pre [] rest); [apply not_elem_of_nil|done].
Qed.

(** What [strtok_r] does on the string [s] that starts at [length pre]:
    no token when [s] holds delimiters only; otherwise the token [t] after
    the leading delimiters [d], either up to the end of [s] (buffer
    untouched) or up to a delimiter [c], which becomes NUL. *)
Lemma strtok_r_spec (pre s rest delim : list ascii) :
  NUL ∉ s → nul_or_end rest →
  (Forall (λ c, c ∈ delim) s ∧
   strtok_r (pre ++ s ++ rest) (length pre) delim
   = (None, length (pre ++ s), pre ++ s ++ rest))
  ∨ (∃ d t, s = d ++ t ∧ Forall (λ c, c ∈ delim) d ∧ t ≠ []
       ∧ Forall (λ c, c ∉ delim) t
       ∧ strtok_r (pre ++ s ++ rest) (length pre) delim
         = (Some (length (pre ++ d)), length (pre ++ d ++ t), pre ++ s ++ rest))
  ∨ (∃ d t c r, s = d ++ t ++ c :: r ∧ Forall (λ c, c ∈ delim) d ∧ t ≠ []
       ∧ Forall (λ c, c ∉ delim) t ∧ c ∈ delim
       ∧ strtok_r (pre ++ s ++ rest) (length pre) delim
         = (Some (length (pre ++ d)), S (length (pre ++ d ++ t)),
            pre ++ d ++ t ++ NUL :: r ++ rest)).
Proof.
  intros Hs Hr. unfold strtok_r. rewrite cstr_at by done.
  destruct (strspn_split s delim) as (d & s1 & -> & Hd & Hs1 & ->).
  replace (length pre + length d) with (length (pre ++ d)) by (rewrite length_app; lia).
  replace (pre ++ (d ++ s1) ++ rest) with ((pre ++ d) ++ s1 ++ rest)
    by (by rewrite <- !app_assoc).
  destruct s1 as [|c0 s1].
  { left. rewrite app_nil_r in *. simpl. rewrite deref_at_end by done.
    rewrite decide_True by done. by rewrite <- !app_assoc. }
  right. simpl. rewrite deref_at.
  assert (Hc0 : c0 ≠ NUL).
  { intros ->. apply Hs. apply elem_of_app. right. left. }
  rewrite decide_False by done.
  assert (Hs1' : NUL ∉ c0 :: s1).
  { intros H. apply Hs. apply elem_of_app. by right. }
  assert (Hcs : cstr ((pre ++ d) ++ c0 :: s1 ++ rest) (length (pre ++ d)) = c0 :: s1)
    by (by apply (cstr_at (pre ++ d) (c0 :: s1) rest)).
  rewrite Hcs.
  destruct (strcspn_split (c0 :: s1) delim) as (t & r & Hsplit & Ht & Hrh & ->).
  assert (Htn : t ≠ []).
  { intros ->. simpl in Hsplit. subst r. done. }
  replace (length (pre ++ d) + length t) with (length (pre ++ d ++ t))
    by (rewrite !length_app; lia).
  replace ((pre ++ d) ++ c0 :: s1 ++ rest) with ((pre ++ d ++ t) ++ r ++ rest)
    by (change (c0 :: s1 ++ rest) with ((c0 :: s1) ++ rest);
        rewrite Hsplit; by rewrite <- !app_assoc).
  destruct r as [|c r].
  - left. exists d, t. rewrite app_nil_r in Hsplit. rewrite Hsplit.
    split_and!; try done. change ([] ++ rest) with rest.
    rewrite deref_at_end by done.
    rewrite decide_True by done. by rewrite <- !app_assoc.
  - right. exists d, t, c, r. rewrite Hsplit.
    split_and!; try done. change ((c :: r) ++ rest) with (c :: r ++ rest).
    rewrite deref_at.
    assert (Hc : c ≠ NUL).
    { intros ->. apply Hs1'. rewrite Hsplit. apply elem_of_app. right. left. }
    rewrite decide_False by done. rewrite insert_at.
    by rewrite <- !app_assoc.
Qed.

(** ** The tokenizer *)

(** The loop of [msh_split_line], entered after a [strtok] call on the
    string [s] at [length pre]: it stops within [length s] rounds with the
    pointers [ptrs] of the tokens of [s]; the buffer changes inside [s]
    only. *)
Lemma msh_split_line_loop_spec (n : nat) :
  ∀ s, length s < n → NUL ∉ s →
  ∀ pre rest tokens fuel, nul_or_end rest → length s ≤ fuel →
  ∃ ptrs x,
    (let '(token, olds, m1) := strtok_r (pre ++ s ++ rest) (length pre) MSH_TOK_DELIM in
     msh_split_line_loop fuel m1 olds token tokens)
    = Some (tokens ++ map Some ptrs ++ [None], pre ++ x ++ rest)
    ∧ length x = length s
    ∧ tokens_of s (map (cstr (pre ++ x ++ rest)) ptrs)
    ∧ Forall (λ p, length pre ≤ p) ptrs
    ∧ StronglySorted lt ptrs.
Proof.
  induction n as [|n IH]; intros s Hn Hs pre rest tokens fuel Hr Hfuel; [lia|].
  destruct (strtok_r_spec pre s rest MSH_TOK_DELIM Hs Hr)
    as [[Hd ->]|[(d & t & -> & Hd & Htn & Ht & ->)
                |(d & t & c & r & -> & Hd & Htn & Ht & Hc & ->)]].
  - exists [], s. destruct fuel; simpl; split_and!; try done; by constructor.
  - assert (Hlen : 0 < length t) by (destruct t; [done|simpl; lia]).
    rewrite length_app in Hfuel. destruct fuel as [|fuel]; [lia|].
    exists [length (pre ++ d)], (d ++ t). cbn [msh_split_line_loop]; unfold strtok.
    replace (pre ++ (d ++ t) ++ rest) with ((pre ++ d ++ t) ++ rest)
      by (by rewrite <- !app_assoc).
    rewrite strtok_r_at_end by done.
    destruct fuel; cbn [msh_split_line_loop]; rewrite <- app_assoc.
    all: split_and!;
      [done|done|
       |constructor; [rewrite length_app; lia|constructor]
       |by repeat constructor].
    all: cbn [map]; replace ((pre ++ d ++ t) ++ rest) with ((pre ++ d) ++ t ++ rest)
           by (by rewrite <- !app_assoc).
    all: rewrite cstr_at by (try done; by eapply not_elem_of_app).
    all: by constructor.
  - assert (Hlen : 0 < length t) by (destruct t; [done|simpl; lia]).
    rewrite !length_app in Hfuel, Hn. cbn [length] in Hfuel, Hn.
    destruct fuel as [|fuel]; [lia|].
    cbn [msh_split_line_loop]; unfold strtok.
    assert (Hr' : NUL ∉ r).
    { intros H. apply Hs. rewrite !elem_of_app. right. right. by right. }
    destruct (IH r ltac:(lia) Hr' (pre ++ d ++ t ++ [NUL]) rest
                (tokens ++ [Some (length (pre ++ d))]) fuel Hr ltac:(lia))
      as (ptrs & x & Hrun & Hx & Htok & Hge & Hsorted).
    replace (length (pre ++ d ++ t ++ [NUL])) with (S (length (pre ++ d ++ t)))
      in Hrun, Hge by (rewrite !length_app; simpl; lia).
    replace ((pre ++ d ++ t ++ [NUL]) ++ r ++ rest)
      with (pre ++ d ++ t ++ NUL :: r ++ rest) in Hrun
      by (by rewrite <- !app_assoc).
    exists (length (pre ++ d) :: ptrs), (d ++ t ++ NUL :: x).
    assert (Hbuf : (pre ++ d ++ t ++ [NUL]) ++ x ++ rest
                   = pre ++ (d ++ t ++ NUL :: x) ++ rest)
      by (by rewrite <- !app_assoc).
    rewrite Hbuf in Hrun, Htok. rewrite Hrun. split_and!.
    + by rewrite <- app_assoc.
    + rewrite !length_app. simpl. lia.
    + cbn [map].
      assert (Ht' : cstr (pre ++ (d ++ t ++ NUL :: x) ++ rest) (length (pre ++ d)) = t).
      { replace (pre ++ (d ++ t ++ NUL :: x) ++ rest)
          with ((pre ++ d) ++ t ++ NUL :: x ++ rest) by (by rewrite <- !app_assoc).
        apply cstr_at; [|done].
        intros H. apply Hs. rewrite !elem_of_app. right. by left. }
      rewrite Ht'. by constructor.
    + constructor; [rewrite length_app; lia|].
      eapply Forall_impl; [exact Hge|]. intros p Hp. simpl in Hp.
      rewrite !length_app in Hp. lia.
    + constructor; [done|].
      eapply Forall_impl; [exact Hge|]. intros p Hp. simpl in Hp.
      rewrite !length_app in *. lia.
Qed.

Lemma runs_delims (d s : list ascii) :
  Forall is_delim d → runs (d ++ s) [] = runs s [].
Proof.
  induction 1 as [|c d Hc _ IH]; [done|].
  cbn [app runs]. by rewrite decide_True.
Qed.

Lemma runs_token (t s cur : list ascii) :
  Forall (λ c, ¬ is_delim c) t → runs (t ++ s) cur = runs s (cur ++ t).
Proof.
  intros Ht. revert cur. induction Ht as [|c t Hc _ IH]; intros cur.
  - by rewrite app_nil_r.
  - cbn [app runs]. rewrite decide_False by done.
    rewrite IH. by rewrite <- app_assoc.
Qed.

(** The relation is functional: it holds of the computed sequence only. *)
Lemma tokens_of_runs (s : list ascii) (ts : list (list ascii)) :
  tokens_of s ts → ts = runs s [].
Proof.
  induction 1 as [d Hd|d t Hd Htn Ht|d t c r ts Hd Htn Ht Hc _ IH].
  - replace (runs d []) with (runs (d ++ []) []) by (by rewrite app_nil_r).
    by rewrite runs_delims by done.
  - rewrite runs_delims by done.
    replace (runs t []) with (runs (t ++ []) []) by (by rewrite app_nil_r).
    rewrite runs_token by done. simpl. by destruct t.
  - rewrite runs_delims, runs_token by done. cbn [app runs].
    rewrite decide_True by done. destruct t; [done|]. by rewrite IH.
Qed.

Lemma tokens_of_nonempty (s : list ascii) (ts : list (list ascii)) :
  tokens_of s ts → Forall (λ t, t ≠ [] ∧ Forall (λ c, ¬ is_delim c) t) ts.
Proof. induction 1; repeat constructor; done. Qed.

Lemma argv_of_tokens (m : buffer) (ptrs : list ptr) :
  argv_of m (map Some ptrs ++ [None])
  = map (λ p, String.string_of_list_ascii (cstr m p)) ptrs.
Proof. induction ptrs as [|p ptrs IH]; simpl; [done|]. by rewrite IH. Qed.

(** [msh_split_line] always returns (the fuel is enough): an array of
    pointers ended by NULL, whose strings are the tokens of the line. *)
Lemma msh_split_line_spec (m : buffer) (line : ptr) :
  ∃ ptrs m',
    msh_split_line m line = Some (map Some ptrs ++ [None], m')
    ∧ length m' = length m
    ∧ tokens_of (cstr m line) (map (cstr m') ptrs)
    ∧ Forall (λ p, line ≤ p) ptrs
    ∧ StronglySorted lt ptrs
    ∧ (∀ q, line + length (cstr m line) ≤ q → drop q m' = drop q m).
Proof.
  destruct (decide (line ≤ length m)) as [Hle|Hgt].
  - destruct (cstr_of_split (drop line m)) as (rest & Hsplit & Hs & Hr).
    fold (cstr m line) in Hsplit, Hs. set (s := cstr m line) in *.
    assert (Hm : m = take line m ++ s ++ rest)
      by (by rewrite <- Hsplit, take_drop).
    assert (Hline : length (take line m) = line) by (rewrite length_take; lia).
    pose proof (f_equal length Hm) as Hlm. rewrite !length_app in Hlm.
    assert (Hlen : length s ≤ length m) by lia.
    destruct (msh_split_line_loop_spec (S (length s)) s ltac:(lia) Hs
                (take line m) rest [] (length m) Hr Hlen)
      as (ptrs & x & Hrun & Hx & Htok & Hge & Hsorted).
    rewrite Hline, <- Hm in Hrun.
    exists ptrs, (take line m ++ x ++ rest). unfold msh_split_line, strtok.
    split_and!; try done.
    + rewrite !length_app. lia.
    + by rewrite <- Hline.
    + intros q Hq. rewrite Hm at 2.
      rewrite !(drop_app_ge (take line m)) by lia.
      rewrite !drop_app_ge by lia. by rewrite Hx.
  - exists [], m. unfold msh_split_line, strtok, strtok_r, cstr, deref.
    rewrite drop_ge by lia. simpl. rewrite Nat.add_0_r.
    rewrite lookup_ge_None_2 by lia. rewrite decide_True by done.
    destruct (length m); simpl; split_and!; try done; by constructor.
Qed.

(** C8.  For every buffer and every line pointer, [msh_split_line] returns
    an array made of the pointers [ptrs] followed by the NULL sentinel; read
    in the buffer it leaves, the pointers give exactly the maximal
    delimiter-free runs of the line ([tokens_of], which only the computed
    sequence [runs] satisfies), in the order of the line (the pointers
    increase); every token is non-empty and holds no space, tab, carriage
    return, newline or bell.  On the line of the specification's example the
    tokens are [ls], [-l], [/tmp]. *)
Theorem msh_split_line_tokens (m : buffer) (line : ptr) :
  (∃ ptrs m',
     msh_split_line m line = Some (map Some ptrs ++ [None], m')
     ∧ tokens_of (cstr m line) (map (cstr m') ptrs)
     ∧ map (cstr m') ptrs = runs (cstr m line) []
     ∧ Forall (λ t, t ≠ [] ∧ Forall (λ c, c ∉ MSH_TOK_DELIM) t) (map (cstr m') ptrs)
     ∧ StronglySorted lt ptrs
     ∧ argv_of m' (map Some ptrs ++ [None]) = map (cstring m') ptrs)
  ∧ (∃ m', msh_split_line example_line 0 = Some ([Some 2; Some 7; Some 10; None], m')
           ∧ argv_of m' [Some 2; Some 7; Some 10; None] = ["ls"; "-l"; "/tmp"]).
Proof.
  split.
  - destruct (msh_split_line_spec m line)
      as (ptrs & m' & Hrun & _ & Htok & _ & Hsorted & _).
    exists ptrs, m'. split_and!; try done.
    + by apply tokens_of_runs.
    + by apply tokens_of_nonempty in Htok.
    + apply argv_of_tokens.
  - eexists. split; [vm_compute; reflexivity|]. vm_compute. reflexivity.
Qed.

(** ** Strings *)

Lemma string_app_assoc (a b c : string) : (a +:+ b) +:+ c = a +:+ b +:+ c.
Proof.
  induction a as [|x a IH]; [done|].
  change (String x ((a +:+ b) +:+ c) = String x (a +:+ b +:+ c)). by rewrite IH.
Qed.

Lemma string_app_nil_r (a : string) : a +:+ "" = a.
Proof.
  induction a as [|x a IH]; [done|].
  change (String x (a +:+ "") = String x a). by rewrite IH.
Qed.

Lemma string_length_app (a b : string) :
  String.length (a +:+ b) = String.length a + String.length b.
Proof.
  induction a as [|x a IH]; [done|].
  change (S (String.length (a +:+ b)) = S (String.length a + String.length b)).
  by rewrite IH.
Qed.

Lemma string_app_space_ne_LF (v a : string) : (v +:+ " ") +:+ a ≠ LF.
Proof.
  intros H. pose proof (f_equal String.length H) as Hlen.
  rewrite !string_length_app in Hlen. change (String.length LF) with 1 in Hlen.
  change (String.length " ") with 1 in Hlen.
  destruct v; [|simpl in Hlen; lia]. destruct a; [|simpl in Hlen; lia].
  vm_compute in H. discriminate.
Qed.

(** ** The argument arrays of the pipeline launcher *)

(** From a joined string [v] that is no longer the initial ["\n"], the loop
    appends every remaining token after a space. *)
Lemma msh_pipe_join_next (v a : string) :
  v ≠ LF → String.length v + 1 + String.length a < ARGS_SIZE →
  msh_pipe_join v a = Some ((v +:+ " ") +:+ a).
Proof.
  intros Hv Hlen. unfold msh_pipe_join, strcat. rewrite decide_False by done.
  change (String.length " ") with 1. rewrite decide_True by lia. simpl.
  rewrite string_length_app. change (String.length " ") with 1.
  by rewrite decide_True by lia.
Qed.

Lemma msh_pipe_join_first (a : string) :
  String.length a < ARGS_SIZE → msh_pipe_join LF a = Some a.
Proof.
  intros Hlen. unfold msh_pipe_join, strcpy. rewrite decide_True by done.
  by rewrite decide_True by lia.
Qed.

Lemma join_rest_length (a : string) (l : list string) :
  String.length (join_rest (a :: l))
  = 1 + String.length a + String.length (join_rest l).
Proof.
  cbn [join_rest]. rewrite !string_length_app. done.
Qed.

Lemma msh_pipe_output_loop_from (l : list string) (v : string) :
  v ≠ LF → String.length v + String.length (join_rest l) < ARGS_SIZE →
  msh_pipe_output_loop l v = Some (v +:+ join_rest l).
Proof.
  revert v. induction l as [|a l IH]; intros v Hv Hlen.
  - simpl. by rewrite string_app_nil_r.
  - rewrite join_rest_length in Hlen. cbn [msh_pipe_output_loop].
    rewrite msh_pipe_join_next by (done || lia). simpl.
    rewrite IH.
    + cbn [join_rest]. by rewrite !string_app_assoc.
    + apply string_app_space_ne_LF.
    + rewrite !string_length_app. change (String.length " ") with 1. lia.
Qed.

Lemma msh_pipe_output_loop_spec (l : list string) :
  LF ∉ l → String.length (join l) < ARGS_SIZE →
  msh_pipe_output_loop l LF = Some (joined l).
Proof.
  destruct l as [|a l]; [done|]. intros Hl Hlen.
  apply not_elem_of_cons in Hl as [Ha Hl]. cbn [join joined] in *.
  rewrite string_length_app in Hlen. cbn [msh_pipe_output_loop].
  rewrite msh_pipe_join_first by lia. simpl.
  apply msh_pipe_output_loop_from; [done|lia].
Qed.

Lemma msh_pipe_input_loop_from (pre tail : list string) (v : string) :
  "|" ∉ pre → v ≠ LF → String.length v + String.length (join_rest pre) < ARGS_SIZE →
  msh_pipe_input_loop (pre ++ "|" :: tail) v = Some (v +:+ join_rest pre).
Proof.
  revert v. induction pre as [|a pre IH]; intros v Hp Hv Hlen.
  - cbn [app msh_pipe_input_loop join_rest]. rewrite decide_True by done.
    by rewrite string_app_nil_r.
  - apply not_elem_of_cons in Hp as [Ha Hp].
    rewrite join_rest_length in Hlen. cbn [msh_pipe_input_loop app].
    rewrite decide_False by done.
    rewrite msh_pipe_join_next by (done || lia). simpl.
    rewrite IH.
    + cbn [join_rest]. by rewrite !string_app_assoc.
    + done.
    + apply string_app_space_ne_LF.
    + rewrite !string_length_app. change (String.length " ") with 1. lia.
Qed.

Lemma msh_pipe_input_loop_spec (pre tail : list string) :
  "|" ∉ pre → LF ∉ pre → String.length (join pre) < ARGS_SIZE →
  msh_pipe_input_loop (pre ++ "|" :: tail) LF = Some (joined pre).
Proof.
  destruct pre as [|a pre]; intros Hp Hl Hlen.
  - cbn [app msh_pipe_input_loop joined]. by rewrite decide_True by done.
  - apply not_elem_of_cons in Hp as [Hap Hp].
    apply not_elem_of_cons in Hl as [Ha Hl]. cbn [join joined] in *.
    rewrite string_length_app in Hlen. cbn [msh_pipe_input_loop app].
    rewrite decide_False by done.
    rewrite msh_pipe_join_first by lia. simpl.
    apply msh_pipe_input_loop_from; [done|done|lia].
Qed.

Lemma msh_pipe_find_loop_none (l : list string) (i pipeLoc : Z) :
  "|" ∉ l → msh_pipe_find_loop l i pipeLoc = pipeLoc.
Proof.
  revert i. induction l as [|a l IH]; intros i Hl; [done|].
  apply not_elem_of_cons in Hl as [Ha Hl]. simpl.
  rewrite decide_False by done. by apply IH.
Qed.

(** The search keeps the index of the last marker. *)
Lemma msh_pipe_find_loop_last (front after : list string) (i pipeLoc : Z) :
  "|" ∉ after →
  msh_pipe_find_loop (front ++ "|" :: after) i pipeLoc
  = (i + Z.of_nat (length front))%Z.
Proof.
  revert i pipeLoc. induction front as [|a front IH]; intros i pipeLoc Ha.
  - cbn [app msh_pipe_find_loop length]. rewrite decide_True by done.
    rewrite msh_pipe_find_loop_none by done. lia.
  - cbn [app msh_pipe_find_loop]. rewrite IH by done. cbn [length]. lia.
Qed.

Lemma strcpy_fits (cap : nat) (a : string) :
  String.length a < cap → strcpy cap a = Some a.
Proof. intros. unfold strcpy. by rewrite decide_True. Qed.

Lemma joined_ne_LF (l : list string) : LF ∉ l → l ≠ [] → joined l ≠ LF.
Proof.
  destruct l as [|a [|b l]]; intros Hl Hne; [done| |].
  - cbn [joined join join_rest]. rewrite string_app_nil_r.
    apply not_elem_of_cons in Hl as [Ha _]. done.
  - cbn [joined join join_rest]. rewrite <- string_app_assoc.
    apply string_app_space_ne_LF.
Qed.

(** The four arrays for a token stream [a0 :: pre ++ "|" :: ...] that ends
    with [... "|" :: c0 :: post]: the producer is [a0] with the tokens up to
    the first marker, the consumer is [c0] with the tokens after the last
    marker. *)
Lemma msh_pipe_args_spec (a0 c0 : string) (pre tail front post : list string) :
  pre ++ "|" :: tail = front ++ "|" :: c0 :: post →
  "|" ∉ pre → "|" ∉ c0 :: post → LF ∉ pre → LF ∉ post →
  String.length a0 < ARGS_SIZE → String.length (join pre) < ARGS_SIZE →
  String.length c0 < ARGS_SIZE → String.length (join post) < ARGS_SIZE →
  msh_pipe_args (a0 :: pre ++ "|" :: tail) = Some (a0, joined pre, c0, joined post).
Proof.
  intros Heq Hpre Hpost Hlpre Hlpost Ha0 Hjpre Hc0 Hjpost.
  unfold msh_pipe_args. cbn [lookup list_lookup drop mbind option_bind].
  rewrite strcpy_fits by done. cbn [mbind option_bind].
  rewrite drop_0, msh_pipe_input_loop_spec by done. cbn [mbind option_bind].
  rewrite Heq, msh_pipe_find_loop_last by done.
  replace (Z.to_nat (1 + Z.of_nat (length front) + 1)) with (S (length (front ++ ["|"])))
    by (rewrite length_app; simpl; lia).
  replace (Z.to_nat (1 + Z.of_nat (length front) + 1 + 1))
    with (S (length (front ++ ["|"; c0]))) by (rewrite length_app; simpl; lia).
  change ((a0 :: front ++ "|" :: c0 :: post) !! S (length (front ++ ["|"])))
    with ((front ++ "|" :: c0 :: post) !! length (front ++ ["|"])).
  cbn [drop].
  replace (front ++ "|" :: c0 :: post) with ((front ++ ["|"]) ++ c0 :: post) at 1
    by (by rewrite <- app_assoc).
  rewrite list_lookup_middle by done. cbn [mbind option_bind].
  rewrite strcpy_fits by done. cbn [mbind option_bind].
  replace (front ++ "|" :: c0 :: post) with ((front ++ ["|"; c0]) ++ post)
    by (by rewrite <- app_assoc).
  rewrite drop_app_length, msh_pipe_output_loop_spec by done. done.
Qed.

Lemma side_argv_joined (file : string) (l : list string) :
  LF ∉ l → side_argv file (joined l) = file :: extra l.
Proof.
  intros Hl. unfold side_argv. destruct l as [|a l]; [done|].
  by rewrite decide_False by (by apply joined_ne_LF).
Qed.

(** Unfolding the calls of a run on a known world. *)
Ltac unfold_calls :=
  unfold pipe, fork, close, dup2, waitpid, execlp, execvp, exec, perror, printf,
    fprintf_stderr, log, answer, bind, ret, exit, defined, undef, emit;
  simpl.

Ltac run_on w Hk :=
  let kern := fresh "kern" in
  destruct w as [kern ? ? ?]; simpl in Hk; subst kern;
  unfold msh_pipe; unfold_calls.

Section msh_pipe_runs.
Context (args : list string) (inputArgs inputArgsV outputArgs outputArgsV : string).
Hypothesis Hargs :
  msh_pipe_args args = Some (inputArgs, inputArgsV, outputArgs, outputArgsV).

(** [pipe] fails: the error is reported, nothing is forked, and the
    function returns [0]. *)
Lemma msh_pipe_pipe_fails (w : world) (r : Z) (k : list Z) :
  kernel w = r :: k → r ≠ 0%Z →
  msh_pipe args w
  = (Ret 0%Z, World k (dirs w) (cwd w)
                (trace w ++ [EPipe r; EPerror ("Pipe error" +:+ LF)])).
Proof.
  intros Hk Hr. run_on w Hk. rewrite Hargs. simpl.
  rewrite decide_True by done. simpl. by rewrite <- app_assoc.
Qed.

(** In the consumer child a successful [execlp] replaces the image. *)
Lemma msh_pipe_consumer_exec (w : world) (k : list Z) :
  kernel w = 0%Z :: 0%Z :: 0%Z :: k →
  (msh_pipe args w).1 = Image outputArgs (side_argv outputArgs outputArgsV).
Proof.
  intros Hk. run_on w Hk. rewrite Hargs. simpl.
  unfold msh_pipe_exec, side_argv. unfold_calls. by case_decide.
Qed.

(** In the consumer child a failed [execlp] is followed by [return 1]:
    nothing is reported and the child does not exit. *)
Lemma msh_pipe_consumer_exec_fails (w : world) (r : Z) (k : list Z) :
  kernel w = 0%Z :: 0%Z :: r :: k → r ≠ 0%Z →
  msh_pipe args w
  = (Ret 1%Z, World k (dirs w) (cwd w)
                (trace w ++ [EPipe 0; EFork 0; EClose fd_1; EDup2 fd_0 STDIN_FILENO;
                             EClose fd_0;
                             EExec outputArgs (side_argv outputArgs outputArgsV) (-1)])).
Proof.
  intros Hk Hr. run_on w Hk. rewrite Hargs. simpl.
  unfold msh_pipe_exec, side_argv. unfold_calls.
  case_decide; simpl; rewrite decide_False by done; simpl;
    by rewrite <- !app_assoc.
Qed.

(** In the producer child a successful [execlp] replaces the image. *)
Lemma msh_pipe_producer_exec (w : world) (pid1 : Z) (k : list Z) :
  kernel w = 0%Z :: pid1 :: 0%Z :: 0%Z :: k → pid1 ≠ 0%Z →
  (msh_pipe args w).1 = Image inputArgs (side_argv inputArgs inputArgsV).
Proof.
  intros Hk Hp. run_on w Hk. rewrite Hargs. simpl.
  rewrite decide_False by done. simpl.
  unfold msh_pipe_exec, side_argv. unfold_calls. by case_decide.
Qed.

(** In the producer child a failed [execlp] falls into the parent's code
    (both [close], both [waitpid]) and then [return 1]. *)
Lemma msh_pipe_producer_exec_fails (w : world) (pid1 r s1 s2 : Z) (k : list Z) :
  kernel w = 0%Z :: pid1 :: 0%Z :: r :: s1 :: s2 :: k → pid1 ≠ 0%Z → r ≠ 0%Z →
  msh_pipe args w
  = (Ret 1%Z, World k (dirs w) (cwd w)
                (trace w ++ [EPipe 0; EFork pid1; EFork 0; EClose fd_0;
                             EDup2 fd_1 STDOUT_FILENO; EClose fd_1;
                             EExec inputArgs (side_argv inputArgs inputArgsV) (-1);
                             EClose fd_1; EClose fd_0;
                             EWaitpid (-1) 0 s1; EWaitpid (-1) 0 s2])).
Proof.
  intros Hk Hp Hr. run_on w Hk. rewrite Hargs. simpl.
  rewrite decide_False by done. simpl.
  unfold msh_pipe_exec, side_argv. unfold_calls.
  case_decide; simpl; rewrite decide_False by done; simpl;
    by rewrite <- !app_assoc.
Qed.
End msh_pipe_runs.

(** ** The sides of a pipeline *)

(** X22.  For a token stream with a marker after its first token and a
    token [c0] after its last marker, whose two program names and two
    joined argument strings are each shorter than the 1024 bytes of their
    arrays, the consumer child runs [c0] and the producer child runs the
    first token [a0], each with no extra argument when its side has no
    further token and otherwise with exactly one, the space-separated join
    of the side's further tokens ([post] after [c0]; [pre] between [a0] and
    the marker that ends the producer's side).  The tokens are as the
    tokenizer yields them (none is a lone newline). *)
Theorem msh_pipe_sides (a0 c0 : string) (pre tail front post : list string)
  (pid1 : Z) (k : list Z) (ds : string → string → option string) (d : string)
  (tr : list event) :
  pre ++ "|" :: tail = front ++ "|" :: c0 :: post →
  ("|" ∉ pre) → ("|" ∉ c0 :: post) → (LF ∉ pre) → (LF ∉ post) →
  String.length a0 < ARGS_SIZE → String.length (join pre) < ARGS_SIZE →
  String.length c0 < ARGS_SIZE → String.length (join post) < ARGS_SIZE →
  pid1 ≠ 0%Z →
  (msh_pipe (a0 :: pre ++ "|" :: tail) (World (0 :: 0 :: 0 :: k)%Z ds d tr)).1
  = Image c0 (c0 :: extra post)
  ∧ (msh_pipe (a0 :: pre ++ "|" :: tail) (World (0 :: pid1 :: 0 :: 0 :: k)%Z ds d tr)).1
    = Image a0 (a0 :: extra pre).
Proof.
  intros Heq Hpre Hpost Hlpre Hlpost Ha0 Hjpre Hc0 Hjpost Hp.
  pose proof (msh_pipe_args_spec a0 c0 pre tail front post Heq Hpre Hpost
                Hlpre Hlpost Ha0 Hjpre Hc0 Hjpost) as Hargs.
  split.
  - rewrite (msh_pipe_consumer_exec _ _ _ _ _ Hargs (World _ ds d tr) k eq_refl).
    by rewrite side_argv_joined.
  - rewrite (msh_pipe_producer_exec _ _ _ _ _ Hargs (World _ ds d tr) pid1 k eq_refl Hp).
    by rewrite side_argv_joined.
Qed.

Lemma msh_pipe_sides_witness :
  (["-l"; "/tmp"] ++ "|" :: ["grep"; "-i"; "main"]
   = ["-l"; "/tmp"] ++ "|" :: "grep" :: ["-i"; "main"]
   ∧ ("|" ∉ ["-l"; "/tmp"]) ∧ ("|" ∉ "grep" :: ["-i"; "main"])
   ∧ (LF ∉ ["-l"; "/tmp"]) ∧ (LF ∉ ["-i"; "main"])
   ∧ String.length "ls" < ARGS_SIZE ∧ String.length (join ["-l"; "/tmp"]) < ARGS_SIZE
   ∧ String.length "grep" < ARGS_SIZE ∧ String.length (join ["-i"; "main"]) < ARGS_SIZE
   ∧ 4242%Z ≠ 0%Z)
  ∧ (msh_pipe ("ls" :: ["-l"; "/tmp"] ++ "|" :: ["grep"; "-i"; "main"])
       (World [0; 0; 0]%Z (λ _ _, None) "/" [])).1
    = Image "grep" ("grep" :: extra ["-i"; "main"])
  ∧ (msh_pipe ("ls" :: ["-l"; "/tmp"] ++ "|" :: ["grep"; "-i"; "main"])
       (World [0; 4242; 0; 0]%Z (λ _ _, None) "/" [])).1
    = Image "ls" ("ls" :: extra ["-l"; "/tmp"]).
Proof.
  split; [split_and!; compute_done|].
  apply (msh_pipe_sides "ls" "grep" ["-l"; "/tmp"] ["grep"; "-i"; "main"]
           ["-l"; "/tmp"] ["-i"; "main"] 4242 [] (λ _ _, None) "/" []); compute_done.
Defined.

(** The partition of the specification fails on [a | b | c]: cut at the
    last marker, the producer would be [a] with the extra argument [| b];
    the producer child runs [a] alone. *)
Lemma last_marker_partition_fails :
  ¬ last_marker_partition ["a"; "|"; "b"; "|"; "c"].
Proof.
  intros H.
  destruct (H ["a"; "|"; "b"] ["c"] ("a", ["a"; "| b"]) ("c", ["c"])
              eq_refl eq_refl eq_refl) as [Hp _].
  vm_compute in Hp. discriminate.
Qed.

(** C4 (amended).  With more than one marker after the first token, a
    token [c0] after the last marker, and two program names and two joined
    argument strings that are each shorter than the 1024 bytes of their
    arrays, the last marker alone locates the consumer, taken from the
    tokens after it; the producer is the first token with the tokens up to
    the first marker; the tokens [mid] between the first and the last marker
    are used by neither side.  The tokens are as the tokenizer yields them
    (none is a lone newline). *)
Theorem msh_pipe_first_and_last_marker (a0 c0 : string) (pre mid post : list string) :
  ("|" ∉ pre) → ("|" ∉ c0 :: post) → (LF ∉ pre) → (LF ∉ post) →
  String.length a0 < ARGS_SIZE → String.length (join pre) < ARGS_SIZE →
  String.length c0 < ARGS_SIZE → String.length (join post) < ARGS_SIZE →
  msh_pipe_args (a0 :: pre ++ "|" :: mid ++ "|" :: c0 :: post)
  = Some (a0, joined pre, c0, joined post)
  ∧ producer_image (a0 :: pre ++ "|" :: mid ++ "|" :: c0 :: post)
    = Image a0 (a0 :: extra pre)
  ∧ consumer_image (a0 :: pre ++ "|" :: mid ++ "|" :: c0 :: post)
    = Image c0 (c0 :: extra post).
Proof.
  intros Hpre Hpost Hlpre Hlpost Ha0 Hjpre Hc0 Hjpost.
  assert (Heq : pre ++ "|" :: mid ++ "|" :: c0 :: post
                = (pre ++ "|" :: mid) ++ "|" :: c0 :: post)
    by (by rewrite <- app_assoc).
  pose proof (msh_pipe_args_spec a0 c0 pre _ _ post Heq Hpre Hpost
                Hlpre Hlpost Ha0 Hjpre Hc0 Hjpost) as Hargs.
  split_and!; [done| |].
  - unfold producer_image.
    rewrite (msh_pipe_producer_exec _ _ _ _ _ Hargs (w0 [0; 1; 0; 0]%Z) 1 [] eq_refl)
      by done.
    by rewrite side_argv_joined.
  - unfold consumer_image.
    rewrite (msh_pipe_consumer_exec _ _ _ _ _ Hargs (w0 [0; 0; 0]%Z) [] eq_refl).
    by rewrite side_argv_joined.
Qed.

Lemma msh_pipe_first_and_last_marker_witness :
  (("|" ∉ ["-l"]) ∧ ("|" ∉ "wc" :: ["-c"]) ∧ (LF ∉ ["-l"]) ∧ (LF ∉ ["-c"])
   ∧ String.length "ls" < ARGS_SIZE ∧ String.length (join ["-l"]) < ARGS_SIZE
   ∧ String.length "wc" < ARGS_SIZE ∧ String.length (join ["-c"]) < ARGS_SIZE)
  ∧ msh_pipe_args ("ls" :: ["-l"] ++ "|" :: ["sort"; "-r"] ++ "|" :: "wc" :: ["-c"])
    = Some ("ls", joined ["-l"], "wc", joined ["-c"])
  ∧ producer_image ("ls" :: ["-l"] ++ "|" :: ["sort"; "-r"] ++ "|" :: "wc" :: ["-c"])
    = Image "ls" ("ls" :: extra ["-l"])
  ∧ consumer_image ("ls" :: ["-l"] ++ "|" :: ["sort"; "-r"] ++ "|" :: "wc" :: ["-c"])
    = Image "wc" ("wc" :: extra ["-c"]).
Proof.
  split; [split_and!; compute_done|].
  apply (msh_pipe_first_and_last_marker "ls" "wc" ["-l"] ["sort"; "-r"] ["-c"]);
    compute_done.
Defined.

(** ** Builtins *)

(** C9.  [cd] without an argument writes the usage message to standard
    error, makes no [chdir] call, leaves the working directory as it was,
    and returns [1] (continue); so does the dispatcher on the lone token
    [cd]. *)
Theorem msh_cd_no_argument (args : list string) (w : world) :
  args !! 1 = None →
  msh_cd args w = (Ret 1%Z, emit (EStderr cd_usage) w)
  ∧ cwd (msh_cd args w).2 = cwd w
  ∧ trace (msh_cd args w).2 = trace w ++ [EStderr cd_usage]
  ∧ msh_execute ["cd"] w = (Ret 1%Z, emit (EStderr cd_usage) w).
Proof.
  intros Hargs.
  assert (H : msh_cd args w = (Ret 1%Z, emit (EStderr cd_usage) w))
    by (unfold msh_cd; by rewrite Hargs).
  rewrite H. done.
Qed.

Lemma msh_cd_no_argument_witness :
  (["cd"] : list string) !! 1 = None
  ∧ msh_cd ["cd"] (w0 []) = (Ret 1%Z, emit (EStderr cd_usage) (w0 []))
  ∧ cwd (msh_cd ["cd"] (w0 [])).2 = cwd (w0 [])
  ∧ trace (msh_cd ["cd"] (w0 [])).2 = trace (w0 []) ++ [EStderr cd_usage]
  ∧ msh_execute ["cd"] (w0 []) = (Ret 1%Z, emit (EStderr cd_usage) (w0 [])).
Proof.
  split; [reflexivity|]. apply (msh_cd_no_argument ["cd"] (w0 [])). reflexivity.
Defined.

(** With an argument, [cd] calls [chdir] on it. *)
Lemma msh_cd_argument (a0 dir : string) (rest : list string) (w : world) :
  ∃ r, trace (msh_cd (a0 :: dir :: rest) w).2
       = trace w ++ EChdir dir r :: (if decide (r = 0%Z) then [] else [EPerror "msh"]).
Proof.
  unfold msh_cd, bind, chdir. simpl.
  destruct (dirs w (cwd w) dir); simpl.
  - by exists 0%Z.
  - exists (-1)%Z. simpl. by rewrite <- app_assoc.
Qed.

(** ** External launcher *)

(** X21.  In the child of [msh_launch] a failed [execvp] is reported with
    [perror] and the child exits with [EXIT_FAILURE], having made no other
    call. *)
Lemma msh_launch_exec_fails (args : list string) (file : string) (w : world)
  (r : Z) (k : list Z) :
  args !! 0 = Some file → kernel w = 0%Z :: r :: k → r ≠ 0%Z →
  msh_launch args w
  = (Exit EXIT_FAILURE,
     World k (dirs w) (cwd w)
       (trace w ++ [EFork 0; EExec file args (-1); EPerror "msh"])).
Proof.
  intros Hargs Hk Hr. destruct w as [kern ds d tr]. simpl in Hk. subst kern.
  unfold msh_launch. unfold_calls. rewrite Hargs. simpl.
  rewrite decide_False by done. simpl. by rewrite <- !app_assoc.
Qed.

(** ** Failures in the pipeline launcher *)

(** C1 (the code departs from it).  In the consumer child of [ls | nosuch]
    and in the producer child of [nosuch | wc] the failed [execlp] is not
    reported and is not followed by [exit]: [msh_pipe] returns [1] in the
    child.  On the line [ls | nosuch & pwd] that child goes on with the next
    segment and prompts for another line. *)
Theorem msh_pipe_child_returns_after_failed_exec :
  msh_pipe ["ls"; "|"; "nosuch"] (w0 [0; 0; -1]%Z)
  = (Ret 1%Z,
     World [] (dirs (w0 [])) "/"
       [EPipe 0; EFork 0; EClose fd_1; EDup2 fd_0 STDIN_FILENO; EClose fd_0;
        EExec "nosuch" ["nosuch"] (-1)])
  ∧ msh_pipe ["nosuch"; "|"; "wc"] (w0 [0; 100; 0; -1; 0; 0]%Z)
    = (Ret 1%Z,
       World [] (dirs (w0 [])) "/"
         [EPipe 0; EFork 100; EFork 0; EClose fd_0; EDup2 fd_1 STDOUT_FILENO;
          EClose fd_1; EExec "nosuch" ["nosuch"] (-1); EClose fd_1; EClose fd_0;
          EWaitpid (-1) 0 0; EWaitpid (-1) 0 0])
  ∧ msh_loop ["ls | nosuch & pwd"] 1 (w0 [0; 0; -1]%Z)
    = (Exit EXIT_SUCCESS,
       World [] (dirs (w0 [])) "/"
         [EStdout "$ "; EPipe 0; EFork 0; EClose fd_1; EDup2 fd_0 STDIN_FILENO;
          EClose fd_0; EExec "nosuch" ["nosuch"] (-1);
          EStdout ("Current working dir: /" +:+ LF); EStdout "$ "]).
Proof. split_and!; vm_compute; reflexivity. Qed.

(** C2 (the code departs from it).  When [pipe] fails on [ls | wc] the
    error is reported and nothing is forked, but [msh_pipe] returns [0]:
    the loop ends and the next line, [pwd], is never read. *)
Theorem msh_pipe_failed_pipe_ends_the_loop :
  msh_pipe ["ls"; "|"; "wc"] (w0 [-1]%Z)
  = (Ret 0%Z, World [] (dirs (w0 [])) "/" [EPipe (-1); EPerror ("Pipe error" +:+ LF)])
  ∧ msh_loop ["ls | wc"; "pwd"] 1 (w0 [-1]%Z)
    = (Ret tt,
       World [] (dirs (w0 [])) "/"
         [EStdout "$ "; EPipe (-1); EPerror ("Pipe error" +:+ LF)]).
Proof. split_and!; vm_compute; reflexivity. Qed.

(** C6 (the code departs from it).  With no token after the last marker,
    as in [ls |], [msh_pipe] hands the NULL after the marker to [strcpy]:
    undefined behaviour, before anything is reported.  With no marker among
    the tokens, as in [a|b], nothing is reported either: the lone token is
    run on both sides. *)
Theorem msh_pipe_malformed_segment :
  (∀ w, msh_pipe ["ls"; "|"] w = (Undef, w))
  ∧ (∀ w, msh_loop ["ls |"; "pwd"] 1 w = (Undef, emit (EStdout "$ ") w))
  ∧ msh_pipe ["a|b"] (w0 [0; 100; 101; 0; 0]%Z)
    = (Ret 1%Z,
       World [] (dirs (w0 [])) "/"
         [EPipe 0; EFork 100; EFork 101; EClose fd_1; EClose fd_0;
          EWaitpid (-1) 0 0; EWaitpid (-1) 0 0])
  ∧ consumer_image ["a|b"] = Image "a|b" ["a|b"]
  ∧ producer_image ["a|b"] = Image "a|b" ["a|b"].
Proof. split_and!; try (vm_compute; reflexivity); intros w; reflexivity. Qed.

(** C5 (the code departs from it).  The joined argument string of a side
    is assembled in a 1024-byte array with [strcpy] and [strcat] and no
    check of the length.  On the line [long_line] the producer's side is
    [ls] with two further tokens of 600 bytes: their join has 1201 bytes,
    the second [strcat] overruns [inputArgsV], and [msh_pipe] is undefined
    before any call to the kernel; the producer is not run as [ls] with the
    joined argument. *)
Theorem msh_pipe_long_side_overruns :
  String.length (join [long_token 600 "a"; long_token 600 "b"]) = 1201
  ∧ msh_pipe_args ["ls"; long_token 600 "a"; long_token 600 "b"; "|"; "wc"] = None
  ∧ (∀ w, msh_pipe ["ls"; long_token 600 "a"; long_token 600 "b"; "|"; "wc"] w
          = (Undef, w))
  ∧ producer_image ["ls"; long_token 600 "a"; long_token 600 "b"; "|"; "wc"]
    ≠ Image "ls" ("ls" :: extra [long_token 600 "a"; long_token 600 "b"])
  ∧ (∀ w, msh_loop [long_line] 1 w = (Undef, emit (EStdout "$ ") w)).
Proof.
  assert (Hargs : msh_pipe_args ["ls"; long_token 600 "a"; long_token 600 "b"; "|"; "wc"]
                  = None) by (vm_compute; reflexivity).
  assert (Hrun : ∀ w, msh_pipe ["ls"; long_token 600 "a"; long_token 600 "b"; "|"; "wc"] w
                      = (Undef, w))
    by (intros w; unfold msh_pipe, bind; by rewrite Hargs).
  split_and!; [vm_compute; reflexivity|done|done| |].
  - unfold producer_image. by rewrite Hrun.
  - intros w. vm_compute. reflexivity.
Qed.

(** ** The read-eval loop *)

Lemma line_buffer_length (l : string) :
  length (line_buffer l) = S (length (String.list_ascii_of_string l)).
Proof. unfold line_buffer. rewrite length_app. simpl. lia. Qed.

(** The routing of a segment, in general: when the string at the start of
    the line buffer holds a marker, the body does not depend on the segment
    at all; when it holds none, the segment goes to the dispatcher whatever
    it contains. *)
Lemma msh_loop_body_marker_at_start (m : buffer) (tempLine token token' : ptr) :
  strchr m tempLine "|" = true →
  msh_loop_body m tempLine token = msh_loop_body m tempLine token'.
Proof. intros H. unfold msh_loop_body. by rewrite H. Qed.

Lemma msh_loop_body_no_marker_at_start (m : buffer) (tempLine token : ptr) :
  strchr m tempLine "|" = false →
  msh_loop_body m tempLine token
  = match msh_split_line m token with
    | None => out_of_fuel
    | Some (tokens, m') =>
        status <- msh_execute (argv_of m' tokens) ;; ret (status, m')
    end.
Proof. intros H. unfold msh_loop_body. by rewrite H. Qed.

(** C3 (the code departs from it).  The test for a marker reads the start
    of the line buffer, not the segment.  On [ls & ls | wc] the second
    segment holds a marker, yet it goes to [msh_execute] and the external
    launcher, which runs [ls] with the arguments [|] and [wc].  On
    [ls|wc & pwd] the second segment holds no marker, yet [msh_pipe] is
    called a second time on the first token of the line and [pwd] is never
    run. *)
Theorem msh_loop_routes_on_the_line_start :
  msh_loop ["ls & ls | wc"] 1 (w0 [100; 0; 0; 0]%Z)
  = (Image "ls" ["ls"; "|"; "wc"],
     World [] (dirs (w0 [])) "/"
       [EStdout "$ "; EFork 100; EWaitpid 100 WUNTRACED 0; EFork 0;
        EExec "ls" ["ls"; "|"; "wc"] 0])
  ∧ msh_loop ["ls|wc & pwd"] 1 (w0 [0; 100; 101; 0; 0; 0; 102; 103; 0; 0]%Z)
    = (Exit EXIT_SUCCESS,
       World [] (dirs (w0 [])) "/"
         [EStdout "$ ";
          EPipe 0; EFork 100; EFork 101; EClose fd_1; EClose fd_0;
          EWaitpid (-1) 0 0; EWaitpid (-1) 0 0;
          EPipe 0; EFork 102; EFork 103; EClose fd_1; EClose fd_0;
          EWaitpid (-1) 0 0; EWaitpid (-1) 0 0;
          EStdout "$ "])
  ∧ (msh_loop ["ls|wc & pwd"] 1 (w0 [0; 100; 101; 0; 0; 0; 0; 0]%Z)).1
    = Image "ls|wc" ["ls|wc"].
Proof. split_and!; vm_compute; reflexivity. Qed.

(** C7 (the code departs from it).  On [ls|wc & exit] the segment [exit]
    is never handed to the builtin: [msh_pipe] is called again on the first
    token of the line and returns [1], so the loop goes on, reads the next
    line and runs [pwd]. *)
Theorem msh_loop_exit_segment_skipped :
  msh_loop ["ls|wc & exit"; "pwd"] 1 (w0 [0; 100; 101; 0; 0; 0; 102; 103; 0; 0]%Z)
  = (Exit EXIT_SUCCESS,
     World [] (dirs (w0 [])) "/"
       [EStdout "$ ";
        EPipe 0; EFork 100; EFork 101; EClose fd_1; EClose fd_0;
        EWaitpid (-1) 0 0; EWaitpid (-1) 0 0;
        EPipe 0; EFork 102; EFork 103; EClose fd_1; EClose fd_0;
        EWaitpid (-1) 0 0; EWaitpid (-1) 0 0;
        EStdout "$ "; EStdout ("Current working dir: /" +:+ LF);
        EStdout "$ "]).
Proof. vm_compute. reflexivity. Qed.

(** The lone token [cd] typed at the prompt: the usage message, then the
    next prompt. *)
Lemma msh_loop_cd_alone :
  msh_loop ["cd"] 1 (w0 [])
  = (Exit EXIT_SUCCESS,
     World [] (dirs (w0 [])) "/" [EStdout "$ "; EStderr cd_usage; EStdout "$ "]).
Proof. vm_compute. reflexivity. Qed.

(** When the segment [exit] does reach the dispatcher, the loop stops
    there: the later segment [pwd] and the next line are not run. *)
Lemma msh_loop_exit_stops_line :
  msh_loop ["ls & exit & pwd"; "pwd"] 1 (w0 [100; 0]%Z)
  = (Ret tt,
     World [] (dirs (w0 [])) "/" [EStdout "$ "; EFork 100; EWaitpid 100 WUNTRACED 0]).
Proof. vm_compute. reflexivity. Qed.

(** A line that is the lone token [exit] ends the loop, whatever follows
    on standard input, when [status] is not zero on entry. *)
Lemma msh_loop_exit_alone (stdin : list string) (status : Z) (w : world) :
  status ≠ 0%Z →
  msh_loop ("exit" :: stdin) status w = (Ret tt, emit (EStdout "$ ") w).
Proof.
  intros Hs. cbn [msh_loop]. unfold bind at 1. unfold printf, log.
  change (length (line_buffer "exit")) with 5.
  cbn [msh_loop_segments].
  change (strtok_r (line_buffer "exit") 0 ["&"%char])
    with (Some 0, 4, line_buffer "exit").
  cbn beta iota. rewrite decide_False by done.
  unfold bind. by vm_compute.
Qed.

(** C10.  [msh_loop] reads [status] before assigning it, so the run is a
    function of the value the variable happens to hold.  For every first
    line with a first segment: holding [0], the loop runs nothing and the
    shell returns after the first prompt; holding anything else, the body
    runs on the first segment and the loop goes on from there.  On the line
    [pwd] the two runs differ in what they print. *)
Theorem msh_loop_first_guard_reads_status (l : string) (stdin : list string)
  (w : world) (token line' : ptr) (m1 : buffer) (status : Z) :
  strtok_r (line_buffer l) 0 ["&"%char] = (Some token, line', m1) →
  status ≠ 0%Z →
  msh_loop (l :: stdin) 0 w = (Ret tt, emit (EStdout "$ ") w)
  ∧ msh_loop (l :: stdin) status w
    = (r <- msh_loop_body m1 0 token ;;
       status' <- msh_loop_segments (length (String.list_ascii_of_string l))
                    r.2 line' 0 r.1 ;;
       if decide (status' = 0%Z) then ret tt else msh_loop stdin status')
        (emit (EStdout "$ ") w)
  ∧ trace (msh_loop ["pwd"] 0 (w0 [])).2 = [EStdout "$ "]
  ∧ trace (msh_loop ["pwd"] 1 (w0 [])).2
    = [EStdout "$ "; EStdout ("Current working dir: /" +:+ LF); EStdout "$ "].
Proof.
  intros Htok Hs. split_and!; [| |done|done].
  - cbn [msh_loop]. unfold bind at 1. unfold printf, log.
    rewrite line_buffer_length. cbn [msh_loop_segments]. rewrite Htok.
    cbn beta iota. by rewrite decide_True by done.
  - cbn [msh_loop]. unfold bind at 1. unfold printf, log.
    rewrite line_buffer_length. cbn [msh_loop_segments]. rewrite Htok.
    cbn beta iota. rewrite decide_False by done.
    unfold bind. by destruct (msh_loop_body m1 0 token _) as [[] ?].
Qed.

Lemma msh_loop_first_guard_reads_status_witness :
  (strtok_r (line_buffer "pwd") 0 ["&"%char] = (Some 0, 3, line_buffer "pwd")
   ∧ 1%Z ≠ 0%Z)
  ∧ msh_loop ["pwd"] 0 (w0 []) = (Ret tt, emit (EStdout "$ ") (w0 []))
  ∧ msh_loop ["pwd"] 1 (w0 [])
    = (r <- msh_loop_body (line_buffer "pwd") 0 0 ;;
       status' <- msh_loop_segments (length (String.list_ascii_of_string "pwd"))
                    r.2 3 0 r.1 ;;
       if decide (status' = 0%Z) then ret tt else msh_loop [] status')
        (emit (EStdout "$ ") (w0 []))
  ∧ trace (msh_loop ["pwd"] 0 (w0 [])).2 = [EStdout "$ "]
  ∧ trace (msh_loop ["pwd"] 1 (w0 [])).2
    = [EStdout "$ "; EStdout ("Current working dir: /" +:+ LF); EStdout "$ "].
Proof.
  split; [split; [reflexivity|discriminate]|].
  apply (msh_loop_first_guard_reads_status "pwd" [] (w0 []) 0 3 (line_buffer "pwd") 1);
    [reflexivity|discriminate].
Defined.

(** ** The loops of the model never lack fuel *)

Lemma total_ret {A} (a : A) : total (ret a).
Proof. by intros w. Qed.

Lemma total_bind {A B} (c : M A) (k : A → M B) :
  total c → (∀ a, total (k a)) → total (x <- c ;; k x).
Proof.
  intros Hc Hk w. unfold bind. specialize (Hc w).
  destruct (c w) as [[] w']; simpl in *; try done. apply Hk.
Qed.

Lemma total_defined {A} (o : option A) : total (defined o).
Proof. by destruct o. Qed.

Lemma total_log (e : event) : total (log e).
Proof. by intros w. Qed.

Lemma total_answer : total answer.
Proof. intros w. unfold answer. by destruct (kernel w). Qed.

Lemma total_exit {A} (code : Z) : total (@exit A code).
Proof. by intros w. Qed.

Lemma total_exec (file : string) (argv : list string) : total (exec file argv).
Proof.
  apply total_bind; [apply total_answer|]. intros r. case_decide; [by intros w|].
  apply total_bind; [apply total_log|]. intros _. apply total_ret.
Qed.

Lemma total_chdir (path : string) : total (chdir path).
Proof. intros w. unfold chdir. by destruct (dirs w (cwd w) path). Qed.

Lemma total_getcwd (size : nat) : total (getcwd size).
Proof. by intros w. Qed.

(** Closing a goal [total c] for a straight-line [c]. *)
Ltac total :=
  repeat first
    [ apply total_ret | apply total_log | apply total_answer | apply total_exit
    | apply total_exec | apply total_chdir | apply total_getcwd
    | apply total_defined
    | apply total_bind; [|intros ?]
    | case_decide
    | progress unfold pipe, fork, close, dup2, waitpid, execlp, execvp, perror,
        printf, fprintf_stderr, msh_pipe_exec ].

Lemma total_msh_pipe (args : list string) : total (msh_pipe args).
Proof.
  unfold msh_pipe. apply total_bind; [total|]. intros [[[? ?] ?] ?]. total.
Qed.

(** Each round of the wait loop uses up one answer of the kernel, and the
    answer [0] given after the last one ends the loop. *)
Lemma msh_launch_wait_total (n : nat) (pid : Z) (w : world) :
  length (kernel w) < n → (msh_launch_wait n pid w).1 ≠ Fuel.
Proof.
  revert w. induction n as [|n IH]; intros w Hn; [lia|].
  destruct w as [[|status k] ds d tr]; cbn [msh_launch_wait];
    unfold waitpid, bind, answer, log, ret; simpl; [done|].
  destruct (negb (WIFEXITED status) && negb (WIFSIGNALED status)); [|done].
  apply IH. simpl in *. lia.
Qed.

Lemma total_msh_launch (args : list string) : total (msh_launch args).
Proof.
  unfold msh_launch. apply total_bind; [total|]. intros pid.
  apply total_bind; [|intros; total].
  case_decide; [total|]. case_decide; [total|].
  intros w. apply msh_launch_wait_total. lia.
Qed.

Lemma total_msh_help_for (names : list string) : total (msh_help_for names).
Proof.
  induction names as [|name names IH]; simpl; [total|].
  apply total_bind; [total|]. intros _. exact IH.
Qed.

Lemma total_msh_cd (args : list string) : total (msh_cd args).
Proof. unfold msh_cd. destruct (args !! 1); total. Qed.

Lemma total_msh_help (args : list string) : total (msh_help args).
Proof.
  unfold msh_help. do 3 (apply total_bind; [total|intros _]).
  apply total_bind; [apply total_msh_help_for|intros _]. total.
Qed.

Lemma total_msh_pwd (args : list string) : total (msh_pwd args).
Proof.
  unfold msh_pwd. apply total_bind; [total|]. intros [d|]; total.
Qed.

Lemma total_msh_execute (args : list string) : total (msh_execute args).
Proof.
  unfold msh_execute. destruct (args !! 0) as [arg0|]; [|total].
  cbn [builtin_str builtin_func msh_execute_for].
  case_decide; [apply total_msh_cd|].
  case_decide; [apply total_msh_help|].
  case_decide; [unfold msh_exit; total|].
  case_decide; [apply total_msh_pwd|].
  apply total_msh_launch.
Qed.

Lemma total_msh_loop_body (m : buffer) (tempLine token : ptr) :
  total (msh_loop_body m tempLine token).
Proof.
  unfold msh_loop_body.
  destruct (msh_split_line_spec m (if strchr m tempLine "|" then tempLine else token))
    as (ptrs & m' & -> & _).
  apply total_bind; [|intros; total].
  destruct (strchr m tempLine "|"); [apply total_msh_pipe|apply total_msh_execute].
Qed.

(** When the body returns, the buffer it hands back is the one the
    tokenizer left. *)
Lemma msh_loop_body_buffer (m : buffer) (tempLine token : ptr) (w w' : world)
  (status : Z) (m' : buffer) :
  msh_loop_body m tempLine token w = (Ret (status, m'), w') →
  ∃ tokens, msh_split_line m (if strchr m tempLine "|" then tempLine else token)
            = Some (tokens, m').
Proof.
  unfold msh_loop_body.
  destruct (msh_split_line _ _) as [[tokens m2]|]; [|done].
  unfold bind. destruct (_ w) as [[] ?]; try done.
  intros [= _ -> _]. by exists tokens.
Qed.

(** A string cannot run past a NUL. *)
Lemma cstr_of_lookup (l : list ascii) (i : nat) :
  i < length (cstr_of l) → ∃ c, l !! i = Some c ∧ c ≠ NUL.
Proof.
  revert i. induction l as [|c l IH]; intros i; simpl; [lia|].
  case_decide; simpl; [lia|]. destruct i as [|i]; [by exists c|].
  intros Hi. apply IH. lia.
Qed.

Lemma cstr_length_le (m : buffer) (p e : ptr) :
  deref m e = NUL → p ≤ e → p + length (cstr m p) ≤ e.
Proof.
  intros He Hp. destruct (decide (p + length (cstr m p) ≤ e)) as [|Hgt]; [done|].
  destruct (cstr_of_lookup (drop p m) (e - p)) as (c & Hc & Hne).
  { fold (cstr m p). lia. }
  rewrite lookup_drop in Hc. replace (p + (e - p)) with e in Hc by lia.
  unfold deref in He. by rewrite Hc in He.
Qed.

(** A token found by [strtok_r] ends at a NUL not after the saved pointer,
    and the string left at the saved pointer is shorter than the one the
    call started from. *)
Lemma strtok_r_progress (m : buffer) (line : ptr) (delim : list ascii)
  (token line' : ptr) (m1 : buffer) :
  strtok_r m line delim = (Some token, line', m1) →
  ∃ e, deref m1 e = NUL ∧ token ≤ e ∧ e ≤ line'
       ∧ length (cstr m1 line') < length (cstr m line).
Proof.
  destruct (decide (line ≤ length m)) as [Hle|Hgt].
  - destruct (cstr_of_split (drop line m)) as (rest & Hsplit & Hs & Hr).
    fold (cstr m line) in Hsplit, Hs. set (s := cstr m line) in *.
    assert (Hm : m = take line m ++ s ++ rest) by (by rewrite <- Hsplit, take_drop).
    assert (Hline : length (take line m) = line) by (rewrite length_take; lia).
    destruct (strtok_r_spec (take line m) s rest delim Hs Hr)
      as [[_ H]|[(d & t & Hdt & _ & Htn & _ & H)
                |(d & t & c & r & Hdt & _ & Htn & _ & _ & H)]];
      rewrite Hline, <- Hm in H; rewrite H; intros [= <- <- <-].
    + exists (length (take line m ++ d ++ t)).
      assert (Hm' : m = (take line m ++ d ++ t) ++ rest)
        by (rewrite Hm at 1; rewrite Hdt; by rewrite <- !app_assoc).
      pose proof (deref_at_end (take line m ++ d ++ t) rest Hr) as He.
      pose proof (cstr_at (take line m ++ d ++ t) [] rest
                    ltac:(apply not_elem_of_nil) Hr) as Hc.
      change ([] ++ rest) with rest in Hc. rewrite <- Hm' in He, Hc.
      split_and!; [done|rewrite !length_app; lia|done|].
      rewrite Hc, Hdt, length_app. destruct t; [done|simpl; lia].
    + exists (length (take line m ++ d ++ t)).
      replace (take line m ++ d ++ t ++ NUL :: r ++ rest)
        with ((take line m ++ d ++ t) ++ NUL :: r ++ rest) by (by rewrite <- !app_assoc).
      split_and!; [apply deref_at|rewrite !length_app; lia|lia|].
      replace ((take line m ++ d ++ t) ++ NUL :: r ++ rest)
        with ((take line m ++ d ++ t ++ [NUL]) ++ r ++ rest) by (by rewrite <- !app_assoc).
      replace (S (length (take line m ++ d ++ t)))
        with (length (take line m ++ d ++ t ++ [NUL])) by (rewrite !length_app; simpl; lia).
      rewrite cstr_at; [rewrite Hdt, !length_app; simpl; lia| |done].
      intros Hin. apply Hs. rewrite Hdt, !elem_of_app. right. right. by right.
  - unfold strtok_r, cstr, deref. rewrite drop_ge by lia. simpl.
    rewrite Nat.add_0_r, lookup_ge_None_2 by lia. by rewrite decide_True.
Qed.

(** The segment loop needs one round more than the string at [line] is
    long: every segment run shortens what is left of the line, because the
    tokenizer writes before the saved pointer only. *)
Lemma msh_loop_segments_total (fuel : nat) :
  ∀ m line status,
    length (cstr m line) < fuel → total (msh_loop_segments fuel m line 0 status).
Proof.
  induction fuel as [|fuel IH]; intros m line status Hfuel; [lia|].
  cbn [msh_loop_segments].
  destruct (strtok_r m line ["&"%char]) as [[[token|] line'] m1] eqn:Htok; [|total].
  case_decide; [total|].
  destruct (strtok_r_progress _ _ _ _ _ _ Htok) as (e & He & Hte & Hel & Hlt).
  intros w. unfold bind.
  pose proof (total_msh_loop_body m1 0 token w) as Hbody.
  destruct (msh_loop_body m1 0 token w) as [[[status' m2]| | | |] w'] eqn:Hrun;
    simpl in *; try done.
  apply IH.
  destruct (msh_loop_body_buffer _ _ _ _ _ _ _ Hrun) as (tokens & Hsplit).
  set (start := if strchr m1 0 "|" then 0 else token) in *.
  destruct (msh_split_line_spec m1 start) as (ptrs & m' & Hspec & _ & _ & _ & _ & Hframe).
  rewrite Hsplit in Hspec. injection Hspec as _ <-.
  assert (Hstart : start + length (cstr m1 start) ≤ line').
  { etrans; [apply (cstr_length_le m1 start e He)|done].
    unfold start. destruct (strchr m1 0 "|"); lia. }
  unfold cstr at 1. rewrite (Hframe line' Hstart). fold (cstr m1 line'). lia.
Qed.

Lemma line_buffer_cstr (l : string) :
  length (cstr (line_buffer l) 0) < length (line_buffer l).
Proof.
  unfold line_buffer. rewrite length_app. simpl.
  pose proof (cstr_length_le (String.list_ascii_of_string l ++ [NUL]) 0
                (length (String.list_ascii_of_string l))) as H.
  rewrite deref_at in H. specialize (H eq_refl). lia.
Qed.

(** No run of the shell stops for lack of fuel. *)
Lemma msh_loop_total (stdin : list string) (status : Z) : total (msh_loop stdin status).
Proof.
  revert status. induction stdin as [|l stdin IH]; intros status; cbn [msh_loop].
  - total.
  - apply total_bind; [total|]. intros _.
    apply total_bind; [apply msh_loop_segments_total, line_buffer_cstr|].
    intros status'. case_decide; [total|apply IH].
Qed.

(** * Further properties *)

(** ** Reading a line *)

Lemma store_next (bufsize : Z) (buffer : list ascii) (c : ascii) :
  (Z.of_nat (length buffer) < bufsize)%Z →
  store bufsize buffer (Z.of_nat (length buffer)) c = Some (buffer ++ [c]).
Proof.
  intros H. unfold store. rewrite decide_True by lia.
  by rewrite Nat2Z.id, firstn_all.
Qed.

Lemma int_add_fits (a b : Z) :
  (INT_MIN ≤ a + b ≤ INT_MAX)%Z → int_add a b = Some (a + b)%Z.
Proof. intros H. unfold int_add. by rewrite decide_True. Qed.

Lemma length_snoc_Z (buffer : list ascii) (c : ascii) :
  (Z.of_nat (length buffer) + 1)%Z = Z.of_nat (length (buffer ++ [c])).
Proof. rewrite length_app. simpl. lia. Qed.

(** One turn of the loop on a byte [c] that is not the newline, from a
    state where [position] counts the bytes written and lies inside the
    allocation: the byte is stored, and the allocation grows when
    [position] reaches it. *)
Lemma msh_read_line_loop_step (alloc : Z → bool) (c : ascii) (stdin : list ascii)
  (bufsize : Z) (buffer : list ascii) :
  c ≠ "010"%char → (Z.of_nat (length buffer) < bufsize)%Z → (bufsize ≤ INT_MAX)%Z →
  msh_read_line_loop alloc (c :: stdin) bufsize (Z.of_nat (length buffer)) buffer
  = if decide (bufsize ≤ Z.of_nat (length (buffer ++ [c])))%Z then
      bufsize' <- defined (int_add bufsize MSH_RL_BUFSIZE) ;;
      if alloc bufsize'
      then msh_read_line_loop alloc stdin bufsize' (Z.of_nat (length (buffer ++ [c])))
             (buffer ++ [c])
      else fprintf_stderr allocation_error ;; exit EXIT_FAILURE
    else msh_read_line_loop alloc stdin bufsize (Z.of_nat (length (buffer ++ [c])))
           (buffer ++ [c]).
Proof.
  intros Hc Hpos Hmax. cbn [msh_read_line_loop]. rewrite decide_False by done.
  rewrite store_next by done.
  rewrite int_add_fits by (unfold INT_MIN, INT_MAX in *; lia).
  by rewrite (length_snoc_Z buffer c).
Qed.

(** While the line fits the range of [int], and the allocator grants what
    the loop asks for, the loop copies the bytes up to the newline and ends
    them with NUL. *)
Lemma msh_read_line_loop_line (alloc : Z → bool) (l rest : list ascii) :
  ("010"%char ∉ l) →
  ∀ bufsize buffer w,
    (Z.of_nat (length buffer) < bufsize ≤ Z.of_nat (length buffer) + MSH_RL_BUFSIZE)%Z →
    (Z.of_nat (length buffer + length l) + MSH_RL_BUFSIZE ≤ INT_MAX)%Z →
    grants alloc (Z.of_nat (length buffer + length l) + MSH_RL_BUFSIZE) →
    msh_read_line_loop alloc (l ++ "010"%char :: rest) bufsize
      (Z.of_nat (length buffer)) buffer w
    = (Ret (buffer ++ l ++ [NUL], rest), w).
Proof.
  induction l as [|c l IH]; intros Hl bufsize buffer w Hpos Hmax Halloc.
  - cbn [app msh_read_line_loop]. rewrite decide_True by done.
    by rewrite store_next by lia.
  - apply not_elem_of_cons in Hl as [Hc Hl]. cbn [app length] in *.
    assert (Hlen : length (buffer ++ [c]) + length l = length buffer + S (length l))
      by (rewrite length_app; simpl; lia).
    rewrite msh_read_line_loop_step by (done || lia).
    pose proof (length_snoc_Z buffer c) as Hsnoc.
    case_decide.
    + rewrite int_add_fits by (unfold INT_MIN, MSH_RL_BUFSIZE in *; lia).
      unfold defined, ret, bind at 1.
      rewrite Halloc by lia.
      rewrite IH; [by rewrite <- app_assoc|done|lia|lia|].
      by rewrite Hlen.
    + rewrite IH; [by rewrite <- app_assoc|done|lia|lia|].
      by rewrite Hlen.
Qed.

Lemma msh_read_line_loop_eof (alloc : Z → bool) (l : list ascii) :
  ("010"%char ∉ l) →
  ∀ bufsize buffer w,
    (Z.of_nat (length buffer) < bufsize ≤ Z.of_nat (length buffer) + MSH_RL_BUFSIZE)%Z →
    (Z.of_nat (length buffer + length l) + MSH_RL_BUFSIZE ≤ INT_MAX)%Z →
    grants alloc (Z.of_nat (length buffer + length l) + MSH_RL_BUFSIZE) →
    msh_read_line_loop alloc l bufsize (Z.of_nat (length buffer)) buffer w
    = (Exit EXIT_SUCCESS, w).
Proof.
  induction l as [|c l IH]; intros Hl bufsize buffer w Hpos Hmax Halloc; [done|].
  apply not_elem_of_cons in Hl as [Hc Hl]. cbn [app length] in *.
  assert (Hlen : length (buffer ++ [c]) + length l = length buffer + S (length l))
    by (rewrite length_app; simpl; lia).
  rewrite msh_read_line_loop_step by (done || lia).
  pose proof (length_snoc_Z buffer c) as Hsnoc.
  case_decide.
  - rewrite int_add_fits by (unfold INT_MIN, MSH_RL_BUFSIZE in *; lia).
    unfold defined, ret, bind at 1.
    rewrite Halloc by lia.
    apply IH; [done|lia|lia|]. by rewrite Hlen.
  - apply IH; [done|lia|lia|]. by rewrite Hlen.
Qed.

Lemma list_ascii_length (l : string) :
  length (String.list_ascii_of_string l) = String.length l.
Proof. induction l as [|c l IH]; [done|]. simpl. by rewrite IH. Qed.

(** X1.  [msh_read_line] returns the bytes that precede the first newline,
    NUL-terminated (the buffer [line_buffer] names), and leaves the bytes
    after the newline on standard input, provided the line is at most
    [INT_MAX - 1024] bytes long, so that [bufsize] stays an [int], and the
    allocator grants the blocks asked for. *)
Theorem msh_read_line_returns_line (alloc : Z → bool) (l : string)
  (rest : list ascii) (w : world) :
  ("010"%char ∉ String.list_ascii_of_string l) →
  (Z.of_nat (String.length l) + MSH_RL_BUFSIZE ≤ INT_MAX)%Z →
  grants alloc (Z.of_nat (String.length l) + MSH_RL_BUFSIZE) →
  msh_read_line alloc (String.list_ascii_of_string l ++ "010"%char :: rest) w
  = (Ret (line_buffer l, rest), w).
Proof.
  intros Hl Hmax Halloc. unfold msh_read_line.
  rewrite Halloc by lia. rewrite <- list_ascii_length in Hmax, Halloc.
  apply (msh_read_line_loop_line alloc _ rest Hl MSH_RL_BUFSIZE [] w);
    [by unfold MSH_RL_BUFSIZE|done|done].
Qed.

Lemma msh_read_line_returns_line_witness :
  (("010"%char ∉ String.list_ascii_of_string "ls -l")
   ∧ (Z.of_nat (String.length "ls -l") + MSH_RL_BUFSIZE ≤ INT_MAX)%Z
   ∧ grants (λ _, true) (Z.of_nat (String.length "ls -l") + MSH_RL_BUFSIZE))
  ∧ msh_read_line (λ _, true)
      (String.list_ascii_of_string "ls -l" ++ "010"%char
       :: String.list_ascii_of_string "pwd") (w0 [])
    = (Ret (line_buffer "ls -l", String.list_ascii_of_string "pwd"), w0 []).
Proof.
  split; [split_and!; [compute_done|compute_done|done]|].
  apply (msh_read_line_returns_line (λ _, true) "ls -l"
           (String.list_ascii_of_string "pwd") (w0 []));
    [compute_done|compute_done|done].
Defined.

(** X2.  When standard input ends before a newline, [msh_read_line] exits
    with [EXIT_SUCCESS] and the bytes of the unfinished line are dropped,
    provided these bytes are at most [INT_MAX - 1024] and the allocator
    grants the blocks asked for. *)
Theorem msh_read_line_eof (alloc : Z → bool) (stdin : list ascii) (w : world) :
  ("010"%char ∉ stdin) →
  (Z.of_nat (length stdin) + MSH_RL_BUFSIZE ≤ INT_MAX)%Z →
  grants alloc (Z.of_nat (length stdin) + MSH_RL_BUFSIZE) →
  msh_read_line alloc stdin w = (Exit EXIT_SUCCESS, w).
Proof.
  intros Hl Hmax Halloc. unfold msh_read_line.
  rewrite Halloc by lia.
  apply (msh_read_line_loop_eof alloc _ Hl MSH_RL_BUFSIZE [] w);
    [by unfold MSH_RL_BUFSIZE|done|done].
Qed.

Lemma msh_read_line_eof_witness :
  (("010"%char ∉ String.list_ascii_of_string "exit")
   ∧ (Z.of_nat (length (String.list_ascii_of_string "exit")) + MSH_RL_BUFSIZE
      ≤ INT_MAX)%Z
   ∧ grants (λ _, true)
       (Z.of_nat (length (String.list_ascii_of_string "exit")) + MSH_RL_BUFSIZE))
  ∧ msh_read_line (λ _, true) (String.list_ascii_of_string "exit") (w0 [])
    = (Exit EXIT_SUCCESS, w0 []).
Proof.
  split; [split_and!; [compute_done|compute_done|done]|].
  apply (msh_read_line_eof (λ _, true) (String.list_ascii_of_string "exit") (w0 []));
    [compute_done|compute_done|done].
Defined.

(** The loop is undefined in one case only, the overflow of
    [bufsize += MSH_RL_BUFSIZE]: the line being read reaches
    [INT_MAX - 1023] bytes and every block asked for on the way is
    granted.  [bufsize] is [MSH_RL_BUFSIZE * k]. *)
Ltac int_lia := unfold MSH_RL_BUFSIZE, INT_MAX, INT_MIN in *; lia.

Lemma msh_read_line_loop_undef (alloc : Z → bool) (stdin : list ascii) :
  ∀ k buffer w,
    (1 ≤ k)%Z → (MSH_RL_BUFSIZE * k ≤ INT_MAX)%Z →
    (Z.of_nat (length buffer) < MSH_RL_BUFSIZE * k
     ≤ Z.of_nat (length buffer) + MSH_RL_BUFSIZE)%Z →
    (msh_read_line_loop alloc stdin (MSH_RL_BUFSIZE * k)
       (Z.of_nat (length buffer)) buffer w).1 = Undef
    ↔ (INT_MAX < Z.of_nat (length buffer + length (pending stdin)) + MSH_RL_BUFSIZE)%Z
      ∧ ∀ j, (k < j)%Z → (MSH_RL_BUFSIZE * j ≤ INT_MAX)%Z →
             alloc (MSH_RL_BUFSIZE * j)%Z = true.
Proof.
  induction stdin as [|c stdin IH]; intros k buffer w Hk Hmax Hpos.
  - cbn [msh_read_line_loop pending length]. unfold exit. cbn [fst].
    split; [done|]. intros [H _]. int_lia.
  - destruct (decide (c = "010"%char)) as [->|Hc].
    + cbn [msh_read_line_loop pending length]. rewrite !decide_True by done.
      rewrite store_next by lia. cbn. split; [done|]. intros [H _]. int_lia.
    + cbn [pending]. rewrite decide_False by done. cbn [length].
      rewrite msh_read_line_loop_step by (done || lia).
      pose proof (length_snoc_Z buffer c) as Hsnoc.
      assert (Hlen : length (buffer ++ [c]) + length (pending stdin)
                     = length buffer + S (length (pending stdin)))
        by (rewrite length_app; simpl; lia).
      case_decide as Hgrow.
      * unfold int_add.
        replace (MSH_RL_BUFSIZE * k + MSH_RL_BUFSIZE)%Z
          with (MSH_RL_BUFSIZE * (k + 1))%Z by lia.
        case_decide as Hsum.
        -- unfold defined, ret, bind at 1.
           destruct (alloc (MSH_RL_BUFSIZE * (k + 1))%Z) eqn:Hgrant.
           ++ rewrite IH by int_lia. rewrite Hlen.
              split; intros [H1 H2]; (split; [done|]); intros j Hj Hjmax.
              ** destruct (decide (j = k + 1)%Z) as [->|Hne]; [done|].
                 apply H2; [lia|done].
              ** apply H2; [lia|done].
           ++ unfold fprintf_stderr, log, exit, bind. cbn [fst].
              split; [done|]. intros [_ H].
              rewrite H in Hgrant by lia. done.
        -- unfold defined, undef, bind. cbn [fst]. split; [|done]. intros _.
           split; [int_lia|]. intros j Hj Hjmax. int_lia.
      * rewrite IH by int_lia. by rewrite Hlen.
Qed.

(** X3.  [msh_read_line] is undefined in exactly one case, the signed
    overflow of [bufsize += MSH_RL_BUFSIZE]: the line being read has
    [INT_MAX - 1023] bytes or more before its newline or the end of input,
    and the allocator granted every block on the way, each a multiple of
    [MSH_RL_BUFSIZE].  In every other case, whatever the input and the
    allocator, each write [buffer[position] = c] falls inside the current
    allocation and [position] stays an [int]. *)
Theorem msh_read_line_undefined_iff (alloc : Z → bool) (stdin : list ascii)
  (w : world) :
  (msh_read_line alloc stdin w).1 = Undef
  ↔ (INT_MAX < Z.of_nat (length (pending stdin)) + MSH_RL_BUFSIZE)%Z
    ∧ ∀ j, (1 ≤ j)%Z → (MSH_RL_BUFSIZE * j ≤ INT_MAX)%Z →
           alloc (MSH_RL_BUFSIZE * j)%Z = true.
Proof.
  unfold msh_read_line.
  destruct (alloc MSH_RL_BUFSIZE) eqn:Hgrant.
  - replace MSH_RL_BUFSIZE with (MSH_RL_BUFSIZE * 1)%Z at 2 by done.
    rewrite (msh_read_line_loop_undef alloc stdin 1 [] w) by done.
    cbn [length Nat.add].
    split; intros [H1 H2]; (split; [done|]); intros j Hj Hjmax.
    + destruct (decide (j = 1)%Z) as [->|Hne]; [done|]. apply H2; [lia|done].
    + apply H2; [lia|done].
  - unfold fprintf_stderr, log, exit, bind. cbn [fst].
    split; [done|]. intros [_ H].
    assert (H1 : alloc (MSH_RL_BUFSIZE * 1)%Z = true) by (by apply H).
    change (MSH_RL_BUFSIZE * 1)%Z with MSH_RL_BUFSIZE in H1. congruence.
Qed.

(** ** External launcher *)

(** The loop condition of [msh_launch] holds exactly on the stopped status
    words. *)
Lemma msh_launch_wait_cond (status : Z) :
  negb (WIFEXITED status) && negb (WIFSIGNALED status) = true ↔ stopped status.
Proof.
  unfold WIFEXITED, WIFSIGNALED, stopped.
  change 127%Z with (Z.ones 7). rewrite Z.land_ones by lia.
  pose proof (Z.mod_pos_bound status (2 ^ 7) ltac:(lia)) as Hb.
  set (t := (status mod 2 ^ 7)%Z) in *.
  assert (Hall : forallb (λ t, Bool.eqb (negb (t =? 0)%Z
                     && negb (0 <? Z.shiftr (signed_char (t + 1)) 1)%Z) (t =? Z.ones 7)%Z)
                   (map Z.of_nat (seq 0 128)) = true) by (vm_compute; reflexivity).
  rewrite forallb_forall in Hall.
  specialize (Hall t). rewrite Bool.eqb_true_iff in Hall.
  rewrite Hall; [apply Z.eqb_eq|].
  apply in_map_iff. exists (Z.to_nat t). split; [lia|]. apply in_seq.
  change (2 ^ 7)%Z with 128%Z in Hb. lia.
Qed.

(** The wait loop goes through the stopped status words and ends on the
    first other one. *)
Lemma msh_launch_wait_run (pid s : Z) (k : list Z) (stops : list Z) :
  Forall stopped stops → ¬ stopped s →
  ∀ fuel ds d tr, length stops < fuel →
  msh_launch_wait fuel pid (World (stops ++ s :: k) ds d tr)
  = (Ret tt, World k ds d (tr ++ map (EWaitpid pid WUNTRACED) (stops ++ [s]))).
Proof.
  intros Hstops Hs. induction Hstops as [|x stops Hx _ IH]; intros fuel ds d tr Hfuel.
  - destruct fuel as [|fuel]; [simpl in Hfuel; lia|].
    cbn [msh_launch_wait app]. unfold_calls.
    destruct (negb (WIFEXITED s) && negb (WIFSIGNALED s)) eqn:Hc; [|done].
    by apply msh_launch_wait_cond in Hc.
  - destruct fuel as [|fuel]; [simpl in Hfuel; lia|].
    cbn [msh_launch_wait app]. unfold_calls.
    apply msh_launch_wait_cond in Hx. rewrite Hx.
    rewrite IH by (simpl in Hfuel; lia). by rewrite <- app_assoc.
Qed.

(** X4.  In the parent, [msh_launch] waits for its child through every
    report that the child is stopped, ends the wait at the first report that
    the child exited or was killed, whatever the exit code or signal, and
    returns [1]; it makes no other call. *)
Theorem msh_launch_parent_waits (args : list string) (pid s : Z) (stops k : list Z)
  (ds : string → string → option string) (d : string) (tr : list event) :
  (0 < pid)%Z → Forall stopped stops → ¬ stopped s →
  msh_launch args (World (pid :: stops ++ s :: k) ds d tr)
  = (Ret 1%Z,
     World k ds d (tr ++ EFork pid :: map (EWaitpid pid WUNTRACED) (stops ++ [s]))).
Proof.
  intros Hpid Hstops Hs.
  assert (Hfork : fork (World (pid :: stops ++ s :: k) ds d tr)
                  = (Ret pid, World (stops ++ s :: k) ds d (tr ++ [EFork pid])))
    by reflexivity.
  unfold msh_launch, bind. rewrite Hfork.
  rewrite decide_False by lia. rewrite decide_False by lia. cbn [kernel].
  rewrite (msh_launch_wait_run pid s k stops Hstops Hs)
    by (rewrite length_app; simpl; lia).
  unfold ret. by rewrite <- app_assoc.
Qed.

Lemma msh_launch_parent_waits_witness :
  ((0 < 100)%Z ∧ Forall stopped [4991; 127]%Z ∧ ¬ stopped 256)
  ∧ msh_launch ["sleep"; "9"] (World (100 :: [4991; 127] ++ 256 :: [7])%Z (λ _ _, None) "/" [])
    = (Ret 1%Z,
       World [7%Z] (λ _ _, None) "/"
         ([] ++ EFork 100 :: map (EWaitpid 100 WUNTRACED) ([4991; 127] ++ [256])%Z)).
Proof.
  split; [split_and!; [lia|repeat constructor|discriminate]|].
  apply (msh_launch_parent_waits ["sleep"; "9"] 100 256 [4991; 127]%Z [7%Z]
           (λ _ _, None) "/" []); [lia|repeat constructor|discriminate].
Defined.

Lemma msh_launch_wait_returns (n : nat) (pid : Z) (w : world) :
  length (kernel w) < n → ∃ w', msh_launch_wait n pid w = (Ret tt, w').
Proof.
  revert w. induction n as [|n IH]; intros w Hn; [lia|].
  destruct w as [[|status k] ds d tr]; cbn [msh_launch_wait];
    unfold waitpid, bind, answer, log, ret; simpl; [by eexists|].
  destruct (negb (WIFEXITED status) && negb (WIFSIGNALED status)); [|by eexists].
  apply IH. simpl in *. lia.
Qed.

Lemma answer_head (w : world) :
  ∃ w', answer w = (Ret (hd 0%Z (kernel w)), w') ∧ kernel w' = tl (kernel w)
        ∧ trace w' = trace w.
Proof. destruct w as [[|r k] ds d tr]; by eexists. Qed.

Lemma fork_head (w : world) :
  ∃ w', fork w = (Ret (hd 0%Z (kernel w)), w') ∧ kernel w' = tl (kernel w).
Proof. destruct w as [[|r k] ds d tr]; by eexists. Qed.

(** X5.  [msh_launch] returns to the shell only in the parent (also when
    [fork] failed) and only with [1]; the child never returns: it becomes
    the program with the whole argument vector, or exits with
    [EXIT_FAILURE] when [execvp] fails. *)
Theorem msh_launch_outcome (args : list string) (file : string) (w : world) :
  args !! 0 = Some file →
  match (msh_launch args w).1 with
  | Ret r => r = 1%Z ∧ hd 0%Z (kernel w) ≠ 0%Z
  | Exit code => code = EXIT_FAILURE ∧ hd 0%Z (kernel w) = 0%Z
  | Image f argv => f = file ∧ argv = args ∧ hd 0%Z (kernel w) = 0%Z
  | Undef | Fuel => False
  end.
Proof.
  intros Hargs. unfold msh_launch, bind.
  destruct (fork_head w) as (w1 & -> & _). case_decide as Hpid.
  - rewrite Hargs. unfold defined, ret, execvp, exec, bind.
    destruct (answer_head w1) as (w2 & -> & _).
    case_decide; [done|]. simpl. done.
  - case_decide.
    + simpl. done.
    + destruct (msh_launch_wait_returns (S (length (kernel w1))) (hd 0%Z (kernel w)) w1)
        as [w' ->]; [lia|]. simpl. done.
Qed.

Lemma msh_launch_outcome_witness :
  (["ls"; "-l"] : list string) !! 0 = Some "ls"
  ∧ match (msh_launch ["ls"; "-l"] (w0 [0; 0]%Z)).1 with
    | Ret r => r = 1%Z ∧ hd 0%Z (kernel (w0 [0; 0]%Z)) ≠ 0%Z
    | Exit code => code = EXIT_FAILURE ∧ hd 0%Z (kernel (w0 [0; 0]%Z)) = 0%Z
    | Image f argv => f = "ls" ∧ argv = ["ls"; "-l"] ∧ hd 0%Z (kernel (w0 [0; 0]%Z)) = 0%Z
    | Undef | Fuel => False
    end.
Proof.
  split; [reflexivity|].
  apply (msh_launch_outcome ["ls"; "-l"] "ls" (w0 [0; 0]%Z)). reflexivity.
Defined.

(** ** Dispatcher and builtins *)


Lemma msh_cd_in_process (args : list string) (w : world) : in_process (msh_cd args) w 1.
Proof.
  unfold in_process, msh_cd, bind, chdir, fprintf_stderr, perror, log, ret, emit.
  destruct (args !! 1) as [dir|]; simpl.
  - destruct (dirs w (cwd w) dir); simpl.
    + eexists _, [_]. split_and!; try done. by repeat constructor.
    + eexists _, [_; _]. split_and!; try done; [by rewrite <- app_assoc|].
      by repeat constructor.
  - eexists _, [_]. split_and!; try done. by repeat constructor.
Qed.

Lemma msh_help_in_process (args : list string) (w : world) : in_process (msh_help args) w 1.
Proof.
  unfold in_process, msh_help, builtin_str, msh_help_for, bind, printf, log, ret, emit.
  simpl. eexists _, [_; _; _; _; _; _; _; _]. split_and!; try done.
  - by rewrite <- !app_assoc.
  - by repeat constructor.
Qed.

Lemma msh_pwd_in_process (args : list string) (w : world) : in_process (msh_pwd args) w 1.
Proof.
  unfold in_process, msh_pwd, bind, getcwd, printf, perror, log, ret, emit. simpl.
  case_decide; eexists _, [_]; split_and!; try done; by repeat constructor.
Qed.

Lemma msh_exit_in_process (args : list string) (w : world) : in_process (msh_exit args) w 0.
Proof. exists w, []. split_and!; try done. by rewrite app_nil_r. Qed.

(** X6.  When the first token is one of [cd], [help], [exit], [pwd],
    [msh_execute] runs the builtin inside the shell: no [pipe], [fork],
    [exec] or [waitpid] is made and no answer of the kernel is used; the
    result is [0] for [exit] and [1] for the other three. *)
Theorem msh_execute_builtin (args : list string) (arg0 : string) (w : world) :
  args !! 0 = Some arg0 → arg0 ∈ builtin_str →
  in_process (msh_execute args) w (if decide (arg0 = "exit") then 0%Z else 1%Z).
Proof.
  intros Hargs Hin. unfold msh_execute. rewrite Hargs.
  cbn [builtin_str builtin_func msh_execute_for].
  unfold builtin_str in Hin.
  repeat (apply elem_of_cons in Hin as [->|Hin]); [| | | |by apply elem_of_nil in Hin].
  - apply msh_cd_in_process.
  - apply msh_help_in_process.
  - apply msh_exit_in_process.
  - apply msh_pwd_in_process.
Qed.

Lemma msh_execute_builtin_witness :
  ((["cd"; "/tmp"] : list string) !! 0 = Some "cd" ∧ "cd" ∈ builtin_str)
  ∧ in_process (msh_execute ["cd"; "/tmp"]) (w0 [5; 6]%Z)
      (if decide ("cd" = "exit") then 0%Z else 1%Z).
Proof.
  split; [split; [reflexivity|compute_done]|].
  apply (msh_execute_builtin ["cd"; "/tmp"] "cd" (w0 [5; 6]%Z)); [reflexivity|compute_done].
Defined.

Lemma msh_launch_ret (args : list string) (w : world) (r : Z) :
  (msh_launch args w).1 = Ret r → r = 1%Z.
Proof.
  unfold msh_launch, bind. destruct (fork_head w) as (w1 & -> & _).
  case_decide.
  - unfold defined. destruct (args !! 0) as [file|]; [|done].
    unfold ret, execvp, exec, bind. destruct (answer_head w1) as (w2 & -> & _).
    by case_decide.
  - case_decide; [simpl; congruence|].
    destruct (msh_launch_wait_returns (S (length (kernel w1))) (hd 0%Z (kernel w)) w1)
      as [w' ->]; [lia|]. simpl. congruence.
Qed.

(** X7.  Whatever the argument vector and the kernel's answers, when
    [msh_execute] returns it returns [0] or [1], and [0] exactly when the
    first token is [exit]: no other command, builtin or external, succeeded
    or failed, stops the loop through the dispatcher. *)
Theorem msh_execute_stops_on_exit_only (args : list string) (w : world) (r : Z) :
  (msh_execute args w).1 = Ret r →
  (r = 0%Z ∨ r = 1%Z) ∧ (r = 0%Z ↔ args !! 0 = Some "exit").
Proof.
  unfold msh_execute. destruct (args !! 0) as [arg0|] eqn:Hargs.
  - cbn [builtin_str builtin_func msh_execute_for].
    destruct (decide (arg0 = "cd")) as [->|Hcd].
    { destruct (msh_cd_in_process args w) as (w' & evs & -> & _).
      intros [= <-]. split; [by right|]. split; [done|]. by intros [= ?]. }
    destruct (decide (arg0 = "help")) as [->|Hhelp].
    { destruct (msh_help_in_process args w) as (w' & evs & -> & _).
      intros [= <-]. split; [by right|]. split; [done|]. by intros [= ?]. }
    destruct (decide (arg0 = "exit")) as [->|Hexit].
    { destruct (msh_exit_in_process args w) as (w' & evs & -> & _).
      intros [= <-]. split; [by left|]. done. }
    destruct (decide (arg0 = "pwd")) as [->|Hpwd].
    { destruct (msh_pwd_in_process args w) as (w' & evs & -> & _).
      intros [= <-]. split; [by right|]. split; [done|]. by intros [= ?]. }
    intros Hr. apply msh_launch_ret in Hr as ->.
    split; [by right|]. split; [done|]. intros [= ->]. done.
  - intros [= <-]. split; [by right|]. done.
Qed.

Lemma msh_execute_stops_on_exit_only_witness :
  (msh_execute ["exit"; "now"] (w0 [])).1 = Ret 0%Z
  ∧ (0%Z = 0%Z ∨ 0%Z = 1%Z)
  ∧ (0%Z = 0%Z ↔ (["exit"; "now"] : list string) !! 0 = Some "exit").
Proof.
  split; [reflexivity|].
  apply (msh_execute_stops_on_exit_only ["exit"; "now"] (w0 []) 0). reflexivity.
Defined.

(** ** Pipeline launcher *)

(** X8.  When [msh_pipe] returns, it returns [0] if [pipe] failed and [1]
    if [pipe] succeeded, whatever [fork], [execlp] and [waitpid] answer: a
    failed [fork] or a failed [execlp] never changes the result. *)
Theorem msh_pipe_result (args : list string) (w : world) (r : Z) :
  (msh_pipe args w).1 = Ret r →
  (r = 0%Z ∧ hd 0%Z (kernel w) ≠ 0%Z) ∨ (r = 1%Z ∧ hd 0%Z (kernel w) = 0%Z).
Proof.
  unfold msh_pipe, bind at 1, defined.
  destruct (msh_pipe_args args) as [[[[iA iV] oA] oV]|]; [|done].
  unfold ret at 1. destruct w as [k ds d tr].
  unfold msh_pipe_exec.
  destruct k as [|r0 k]; [|destruct k as [|r1 k]; [|destruct k as [|r2 k];
    [|destruct k as [|r3 k]; [|destruct k as [|r4 k]; [|destruct k as [|r5 k]]]]]];
    unfold_calls; repeat (case_decide; simpl); intros [= <-]; auto.
Qed.

Lemma msh_pipe_result_witness :
  (msh_pipe ["ls"; "|"; "wc"] (w0 [0; -1; -1]%Z)).1 = Ret 1%Z
  ∧ ((1%Z = 0%Z ∧ hd 0%Z (kernel (w0 [0; -1; -1]%Z)) ≠ 0%Z)
     ∨ (1%Z = 1%Z ∧ hd 0%Z (kernel (w0 [0; -1; -1]%Z)) = 0%Z)).
Proof.
  split; [reflexivity|].
  apply (msh_pipe_result ["ls"; "|"; "wc"] (w0 [0; -1; -1]%Z) 1). reflexivity.
Defined.

(** X9.  Once [pipe] has succeeded, every process that leaves [msh_pipe],
    the parent by returning and each child by [execlp] or by returning after
    a failed [execlp], has closed both ends [fd[0]] and [fd[1]] of the pipe
    first. *)
Theorem msh_pipe_closes_both_ends (args : list string) (w : world) :
  is_Some (msh_pipe_args args) → hd 0%Z (kernel w) = 0%Z →
  ∃ evs, trace (msh_pipe args w).2 = trace w ++ evs
         ∧ EClose fd_0 ∈ evs ∧ EClose fd_1 ∈ evs.
Proof.
  intros [[[[iA iV] oA] oV] Hargs] Hpipe.
  unfold msh_pipe, bind at 1, defined. rewrite Hargs.
  unfold ret at 1. destruct w as [k ds d tr]. unfold msh_pipe_exec.
  destruct k as [|r0 k]; [|destruct k as [|r1 k]; [|destruct k as [|r2 k];
    [|destruct k as [|r3 k]; [|destruct k as [|r4 k]; [|destruct k as [|r5 k]]]]]];
    simpl in Hpipe; subst;
    unfold_calls; repeat (case_decide; simpl); try done;
    rewrite <- ?app_assoc; simpl;
    (eexists; split; [reflexivity|split; apply list_elem_of_In; simpl; tauto]).
Qed.

Lemma msh_pipe_closes_both_ends_witness :
  (is_Some (msh_pipe_args ["ls"; "|"; "wc"]) ∧ hd 0%Z (kernel (w0 [0; 0; 0]%Z)) = 0%Z)
  ∧ ∃ evs, trace (msh_pipe ["ls"; "|"; "wc"] (w0 [0; 0; 0]%Z)).2
           = trace (w0 [0; 0; 0]%Z) ++ evs
           ∧ EClose fd_0 ∈ evs ∧ EClose fd_1 ∈ evs.
Proof.
  split; [split; [by eexists|reflexivity]|].
  apply (msh_pipe_closes_both_ends ["ls"; "|"; "wc"] (w0 [0; 0; 0]%Z));
    [by eexists|reflexivity].
Defined.

Lemma strcpy_some (cap : nat) (a r : string) :
  strcpy cap a = Some r → r = a ∧ String.length a < cap.
Proof. unfold strcpy. case_decide; [|done]. by intros [= <-]. Qed.

Lemma msh_pipe_join_some (v a r : string) :
  v ≠ LF → msh_pipe_join v a = Some r →
  r = (v +:+ " ") +:+ a ∧ String.length v + 1 + String.length a < ARGS_SIZE.
Proof.
  intros Hv. unfold msh_pipe_join, strcat. rewrite decide_False by done.
  change (String.length " ") with 1. case_decide; [|done]. simpl.
  rewrite string_length_app. change (String.length " ") with 1.
  case_decide; [|done]. intros [= <-]. split; [done|lia].
Qed.

(** A joining loop that ends has kept every intermediate string, hence the
    final one, inside the array. *)
Lemma msh_pipe_output_loop_from_some (l : list string) (v r : string) :
  v ≠ LF → String.length v < ARGS_SIZE → msh_pipe_output_loop l v = Some r →
  String.length v + String.length (join_rest l) < ARGS_SIZE.
Proof.
  revert v. induction l as [|a l IH]; intros v Hv Hlen Hrun.
  - simpl. lia.
  - cbn [msh_pipe_output_loop] in Hrun.
    destruct (msh_pipe_join v a) as [v'|] eqn:Hjoin; [|done].
    apply msh_pipe_join_some in Hjoin as [-> Hfit]; [|done].
    cbn [mbind option_bind] in Hrun. apply IH in Hrun.
    + rewrite join_rest_length. rewrite !string_length_app in Hrun.
      change (String.length " ") with 1 in Hrun. lia.
    + apply string_app_space_ne_LF.
    + rewrite !string_length_app. change (String.length " ") with 1. lia.
Qed.

Lemma msh_pipe_output_loop_some (l : list string) (r : string) :
  (LF ∉ l) → msh_pipe_output_loop l LF = Some r →
  String.length (join l) < ARGS_SIZE.
Proof.
  destruct l as [|a l]; intros Hl Hrun; [unfold ARGS_SIZE; simpl; lia|].
  apply not_elem_of_cons in Hl as [Ha Hl]. cbn [msh_pipe_output_loop] in Hrun.
  destruct (msh_pipe_join LF a) as [v'|] eqn:Hjoin; [|done].
  unfold msh_pipe_join in Hjoin. rewrite decide_True in Hjoin by done.
  apply strcpy_some in Hjoin as [-> Hfit]. cbn [mbind option_bind] in Hrun.
  apply msh_pipe_output_loop_from_some in Hrun; [|done|done].
  cbn [join]. rewrite string_length_app. lia.
Qed.

Lemma msh_pipe_input_loop_from_some (pre tail : list string) (v r : string) :
  ("|" ∉ pre) → v ≠ LF → String.length v < ARGS_SIZE →
  msh_pipe_input_loop (pre ++ "|" :: tail) v = Some r →
  String.length v + String.length (join_rest pre) < ARGS_SIZE.
Proof.
  revert v. induction pre as [|a pre IH]; intros v Hp Hv Hlen Hrun.
  - simpl. lia.
  - apply not_elem_of_cons in Hp as [Ha Hp].
    cbn [app msh_pipe_input_loop] in Hrun. rewrite decide_False in Hrun by done.
    destruct (msh_pipe_join v a) as [v'|] eqn:Hjoin; [|done].
    apply msh_pipe_join_some in Hjoin as [-> Hfit]; [|done].
    cbn [mbind option_bind] in Hrun. apply IH in Hrun.
    + rewrite join_rest_length. rewrite !string_length_app in Hrun.
      change (String.length " ") with 1 in Hrun. lia.
    + done.
    + apply string_app_space_ne_LF.
    + rewrite !string_length_app. change (String.length " ") with 1. lia.
Qed.

Lemma msh_pipe_input_loop_some (pre tail : list string) (r : string) :
  ("|" ∉ pre) → (LF ∉ pre) → msh_pipe_input_loop (pre ++ "|" :: tail) LF = Some r →
  String.length (join pre) < ARGS_SIZE.
Proof.
  destruct pre as [|a pre]; intros Hp Hl Hrun; [unfold ARGS_SIZE; simpl; lia|].
  apply not_elem_of_cons in Hp as [Hap Hp].
  apply not_elem_of_cons in Hl as [Ha Hl].
  cbn [app msh_pipe_input_loop] in Hrun. rewrite decide_False in Hrun by done.
  destruct (msh_pipe_join LF a) as [v'|] eqn:Hjoin; [|done].
  unfold msh_pipe_join in Hjoin. rewrite decide_True in Hjoin by done.
  apply strcpy_some in Hjoin as [-> Hfit]. cbn [mbind option_bind] in Hrun.
  apply msh_pipe_input_loop_from_some in Hrun; [|done|done|done].
  cbn [join]. rewrite string_length_app. lia.
Qed.

Lemma msh_pipe_input_loop_no_marker (l : list string) (v : string) :
  ("|" ∉ l) → msh_pipe_input_loop l v = msh_pipe_output_loop l v.
Proof.
  revert v. induction l as [|a l IH]; intros v Hl; [done|].
  apply not_elem_of_cons in Hl as [Ha Hl]. cbn [msh_pipe_input_loop msh_pipe_output_loop].
  rewrite decide_False by done. destruct (msh_pipe_join v a); [by apply IH|done].
Qed.

(** X10.  When no token after the first is a marker (the marker sits
    inside a token, as in [a|b -x]), the search finds nothing and both sides
    are the same command: the first token, with all the further tokens
    joined as its one extra argument.  That is so when the first token and
    the joined string are each shorter than the 1024 bytes of their arrays;
    otherwise an array is overrun and [msh_pipe] is undefined.  The tokens
    are as the tokenizer yields them (none is a lone newline). *)
Theorem msh_pipe_no_marker (a0 : string) (rest : list string) :
  ("|" ∉ rest) → (LF ∉ rest) →
  if decide (String.length a0 < ARGS_SIZE ∧ String.length (join rest) < ARGS_SIZE)
  then msh_pipe_args (a0 :: rest) = Some (a0, joined rest, a0, joined rest)
       ∧ producer_image (a0 :: rest) = Image a0 (a0 :: extra rest)
       ∧ consumer_image (a0 :: rest) = Image a0 (a0 :: extra rest)
  else ∀ w, msh_pipe (a0 :: rest) w = (Undef, w).
Proof.
  intros Hrest Hlf. case_decide as Hfit.
  - destruct Hfit as [Ha0 Hjoin].
    assert (Hargs : msh_pipe_args (a0 :: rest) = Some (a0, joined rest, a0, joined rest)).
    { unfold msh_pipe_args. cbn [lookup list_lookup drop mbind option_bind].
      rewrite strcpy_fits by done. cbn [mbind option_bind].
      rewrite drop_0. rewrite msh_pipe_input_loop_no_marker by done.
      rewrite (msh_pipe_output_loop_spec rest) by done.
      cbn [mbind option_bind]. rewrite msh_pipe_find_loop_none by done.
      change (Z.to_nat (-1 + 1)) with 0. change (Z.to_nat (-1 + 1 + 1)) with 1.
      cbn [lookup list_lookup drop mbind option_bind].
      rewrite strcpy_fits by done. cbn [mbind option_bind].
      rewrite ?drop_0. rewrite (msh_pipe_output_loop_spec rest) by done. done. }
    split_and!; [done| |].
    + unfold producer_image.
      rewrite (msh_pipe_producer_exec _ _ _ _ _ Hargs (w0 [0; 1; 0; 0]%Z) 1 [] eq_refl)
        by done.
      by rewrite side_argv_joined.
    + unfold consumer_image.
      rewrite (msh_pipe_consumer_exec _ _ _ _ _ Hargs (w0 [0; 0; 0]%Z) [] eq_refl).
      by rewrite side_argv_joined.
  - assert (Hargs : msh_pipe_args (a0 :: rest) = None).
    { unfold msh_pipe_args. cbn [lookup list_lookup drop mbind option_bind].
      destruct (strcpy ARGS_SIZE a0) as [iA|] eqn:HiA; [|done].
      apply strcpy_some in HiA as [_ Ha0]. cbn [mbind option_bind].
      rewrite drop_0. rewrite msh_pipe_input_loop_no_marker by done.
      destruct (msh_pipe_output_loop rest LF) as [iV|] eqn:HiV; [|done].
      apply msh_pipe_output_loop_some in HiV; [|done]. by destruct Hfit. }
    intros w. unfold msh_pipe, bind. by rewrite Hargs.
Qed.

Lemma msh_pipe_no_marker_witness :
  (("|" ∉ ["-x"; "y"]) ∧ (LF ∉ ["-x"; "y"]))
  ∧ if decide (String.length "a|b" < ARGS_SIZE
               ∧ String.length (join ["-x"; "y"]) < ARGS_SIZE)
    then msh_pipe_args ("a|b" :: ["-x"; "y"])
         = Some ("a|b", joined ["-x"; "y"], "a|b", joined ["-x"; "y"])
         ∧ producer_image ("a|b" :: ["-x"; "y"])
           = Image "a|b" ("a|b" :: extra ["-x"; "y"])
         ∧ consumer_image ("a|b" :: ["-x"; "y"])
           = Image "a|b" ("a|b" :: extra ["-x"; "y"])
    else ∀ w, msh_pipe ("a|b" :: ["-x"; "y"]) w = (Undef, w).
Proof.
  split; [split_and!; compute_done|].
  apply (msh_pipe_no_marker "a|b" ["-x"; "y"]); compute_done.
Defined.

(** X11.  A token stream that ends with a marker after its first token
    always makes [msh_pipe] undefined, before any call to the kernel: the
    [strcpy] into [outputArgs] reads the NULL that ends the vector. *)
Theorem msh_pipe_trailing_marker (a0 : string) (front : list string) (w : world) :
  msh_pipe (a0 :: front ++ ["|"]) w = (Undef, w).
Proof.
  assert (Hargs : msh_pipe_args (a0 :: front ++ ["|"]) = None).
  { unfold msh_pipe_args. cbn [lookup list_lookup drop mbind option_bind].
    destruct (strcpy ARGS_SIZE a0); [|done]. cbn [mbind option_bind].
    rewrite drop_0. destruct (msh_pipe_input_loop _ _); [|done].
    cbn [mbind option_bind].
    rewrite msh_pipe_find_loop_last by apply not_elem_of_nil.
    replace (Z.to_nat (1 + Z.of_nat (length front) + 1))
      with (S (length (front ++ ["|"]))) by (rewrite length_app; simpl; lia).
    change ((a0 :: front ++ ["|"]) !! S (length (front ++ ["|"])))
      with ((front ++ ["|"]) !! length (front ++ ["|"])).
    by rewrite lookup_ge_None_2 by lia. }
  unfold msh_pipe, bind. by rewrite Hargs.
Qed.

(** X12.  For a token stream with a marker after its first token and a
    token after its last marker, the four arrays of [msh_pipe] are filled
    without overrun exactly when the two program names and the two joined
    argument strings are each shorter than 1024 bytes; one byte more in any
    of them and [msh_pipe] is undefined. *)
Theorem msh_pipe_args_defined_iff (a0 c0 : string) (pre tail front post : list string) :
  pre ++ "|" :: tail = front ++ "|" :: c0 :: post →
  ("|" ∉ pre) → ("|" ∉ c0 :: post) → (LF ∉ pre) → (LF ∉ post) →
  is_Some (msh_pipe_args (a0 :: pre ++ "|" :: tail))
  ↔ String.length a0 < ARGS_SIZE ∧ String.length (join pre) < ARGS_SIZE
    ∧ String.length c0 < ARGS_SIZE ∧ String.length (join post) < ARGS_SIZE.
Proof.
  intros Heq Hpre Hpost Hlpre Hlpost. split.
  - intros [arrays Hrun]. unfold msh_pipe_args in Hrun.
    cbn [lookup list_lookup drop mbind option_bind] in Hrun. rewrite drop_0 in Hrun.
    destruct (strcpy ARGS_SIZE a0) as [iA|] eqn:HiA; [|done].
    apply strcpy_some in HiA as [_ Ha0]. cbn [mbind option_bind] in Hrun.
    destruct (msh_pipe_input_loop _ _) as [iV|] eqn:HiV; [|done].
    apply msh_pipe_input_loop_some in HiV; [|done|done].
    cbn [mbind option_bind] in Hrun.
    rewrite Heq, msh_pipe_find_loop_last in Hrun by done.
    replace (Z.to_nat (1 + Z.of_nat (length front) + 1)) with (S (length (front ++ ["|"])))
      in Hrun by (rewrite length_app; simpl; lia).
    replace (Z.to_nat (1 + Z.of_nat (length front) + 1 + 1))
      with (S (length (front ++ ["|"; c0]))) in Hrun by (rewrite length_app; simpl; lia).
    change ((a0 :: front ++ "|" :: c0 :: post) !! S (length (front ++ ["|"])))
      with ((front ++ "|" :: c0 :: post) !! length (front ++ ["|"])) in Hrun.
    cbn [drop] in Hrun.
    replace (front ++ "|" :: c0 :: post) with ((front ++ ["|"]) ++ c0 :: post) in Hrun at 1
      by (by rewrite <- app_assoc).
    rewrite list_lookup_middle in Hrun by done. cbn [mbind option_bind] in Hrun.
    destruct (strcpy ARGS_SIZE c0) as [oA|] eqn:HoA; [|done].
    apply strcpy_some in HoA as [_ Hc0]. cbn [mbind option_bind] in Hrun.
    replace (front ++ "|" :: c0 :: post) with ((front ++ ["|"; c0]) ++ post) in Hrun
      by (by rewrite <- app_assoc).
    rewrite drop_app_length in Hrun.
    destruct (msh_pipe_output_loop post LF) as [oV|] eqn:HoV; [|done].
    apply msh_pipe_output_loop_some in HoV; done.
  - intros (Ha0 & Hjpre & Hc0 & Hjpost).
    rewrite (msh_pipe_args_spec a0 c0 pre tail front post) by done. by eexists.
Qed.

Lemma msh_pipe_args_defined_iff_witness :
  (["-l"] ++ "|" :: ["wc"; "-c"] = ["-l"] ++ "|" :: "wc" :: ["-c"]
   ∧ ("|" ∉ ["-l"]) ∧ ("|" ∉ "wc" :: ["-c"]) ∧ (LF ∉ ["-l"]) ∧ (LF ∉ ["-c"]))
  ∧ (is_Some (msh_pipe_args ("ls" :: ["-l"] ++ "|" :: ["wc"; "-c"]))
     ↔ String.length "ls" < ARGS_SIZE ∧ String.length (join ["-l"]) < ARGS_SIZE
       ∧ String.length "wc" < ARGS_SIZE ∧ String.length (join ["-c"]) < ARGS_SIZE).
Proof.
  split; [split_and!; compute_done|].
  apply (msh_pipe_args_defined_iff "ls" "wc" ["-l"] ["wc"; "-c"] ["-l"] ["-c"]);
    compute_done.
Defined.

(** ** Tokenizer and line buffer *)


(** ** Segments *)

(** X14.  For the first segment of a line the marker test is right: just
    after the first [strtok_r] the string at the start of the line buffer
    holds a ["|"] exactly when the segment's own text does (the bytes
    skipped before the segment are all ["&"]). *)
Theorem msh_loop_first_segment_flag (m : buffer) (token line' : ptr) (m1 : buffer) :
  strtok_r m 0 ["&"%char] = (Some token, line', m1) →
  strchr m1 0 "|" = bool_decide ("|"%char ∈ cstr m1 token).
Proof.
  destruct (cstr_of_split (drop 0 m)) as (rest & Hsplit & Hs & Hr).
  fold (cstr m 0) in Hsplit, Hs. rewrite drop_0 in Hsplit.
  set (s := cstr m 0) in *.
  assert (Hamp : ∀ d : list ascii, Forall (λ c, c ∈ ["&"%char]) d → "|"%char ∉ d).
  { intros d Hd Hin. rewrite Forall_forall in Hd. specialize (Hd _ Hin).
    apply list_elem_of_singleton in Hd. discriminate. }
  destruct (strtok_r_spec [] s rest ["&"%char] Hs Hr)
    as [[_ H]|[(d & t & Hdt & Hd & Htn & Ht & H)
              |(d & t & c & r & Hdt & Hd & Htn & Ht & Hc & H)]];
    cbn [app length] in H; rewrite <- Hsplit in H; rewrite H; intros [= <- <- <-].
  - unfold strchr. apply bool_decide_ext.
    assert (Hnul : NUL ∉ t).
    { intros Hin. apply Hs. rewrite Hdt, elem_of_app. by right. }
    rewrite Hsplit at 2. rewrite Hdt, <- app_assoc.
    rewrite (cstr_at d t rest) by done. fold s. rewrite Hdt, elem_of_app.
    split; [intros [Hin|Hin]; [by apply Hamp in Hin|done]|by right].
  - unfold strchr. apply bool_decide_ext.
    assert (Hnul : NUL ∉ d ++ t).
    { intros Hin. apply Hs. rewrite Hdt, !elem_of_app.
      apply elem_of_app in Hin as [?|?]; auto. }
    pose proof Hnul as Hnul'. apply not_elem_of_app in Hnul' as [_ Hnt].
    rewrite (cstr_at d t (NUL :: r ++ rest)) by done.
    pose proof (cstr_at [] (d ++ t) (NUL :: r ++ rest) Hnul eq_refl) as H0.
    cbn [app length] in H0. rewrite <- app_assoc in H0. rewrite H0.
    rewrite elem_of_app.
    split; [intros [Hin|Hin]; [by apply Hamp in Hin|done]|by right].
Qed.

Lemma msh_loop_first_segment_flag_witness :
  strtok_r (line_buffer "&ls | wc & pwd") 0 ["&"%char]
  = (Some 1, 10, <[9 := NUL]> (line_buffer "&ls | wc & pwd"))
  ∧ strchr (<[9 := NUL]> (line_buffer "&ls | wc & pwd")) 0 "|"
    = bool_decide ("|"%char ∈ cstr (<[9 := NUL]> (line_buffer "&ls | wc & pwd")) 1).
Proof.
  split; [reflexivity|].
  apply (msh_loop_first_segment_flag (line_buffer "&ls | wc & pwd") 1 10). reflexivity.
Defined.

Lemma deref_drop (m : buffer) (p : ptr) : deref m p = deref (drop p m) 0.
Proof. unfold deref. by rewrite lookup_drop, Nat.add_0_r. Qed.

(** At the end of the string there is no token. *)
Lemma strtok_r_end (m : buffer) (p : ptr) (delim : list ascii) :
  nul_or_end (drop p m) → strtok_r m p delim = (None, p, m).
Proof.
  intros Hr. unfold strtok_r.
  assert (Hc : cstr m p = []).
  { unfold cstr. destruct (drop p m) as [|c r]; [done|]. simpl in *.
    by rewrite decide_True. }
  rewrite Hc. simpl. rewrite Nat.add_0_r, deref_drop.
  assert (Hd : deref (drop p m) 0 = NUL).
  { destruct (drop p m) as [|c r]; [done|]. exact Hr. }
  by rewrite Hd, decide_True.
Qed.

(** A string with no delimiter is one token; the buffer is left alone. *)
Lemma strtok_r_whole (s rest delim : list ascii) :
  (NUL ∉ s) → nul_or_end rest → s ≠ [] → Forall (λ c, c ∉ delim) s →
  strtok_r (s ++ rest) 0 delim = (Some 0, length s, s ++ rest).
Proof.
  intros Hs Hr Hne Hfree.
  assert (Hnot : ∀ d c l, s = d ++ c :: l → c ∉ delim).
  { intros d c l ->. rewrite Forall_forall in Hfree. apply Hfree.
    rewrite elem_of_app. right. left. }
  destruct (strtok_r_spec [] s rest delim Hs Hr)
    as [[Hd H]|[(d & t & Hdt & Hd & Htn & Ht & H)
               |(d & t & c & r & Hdt & Hd & Htn & Ht & Hc & H)]];
    cbn [app length] in H.
  - destruct s as [|c s]; [done|]. apply Forall_cons in Hd as [Hc _].
    by apply (Hnot [] c s) in Hc.
  - destruct d as [|c d].
    + simpl in Hdt. subst t. exact H.
    + apply Forall_cons in Hd as [Hc _]. by apply (Hnot [] c (d ++ t)) in Hc.
  - exfalso. apply (Hnot (d ++ t) c r); [by rewrite <- app_assoc|done].
Qed.

(** The segment loop on a line that holds neither ["&"] nor ["|"]: the
    whole line is tokenized and handed to the dispatcher, once. *)
Lemma msh_loop_segments_single (m : buffer) (status : Z) (w : world)
  (tokens : list (option ptr)) (m' : buffer) :
  cstr m 0 ≠ [] → ("&"%char ∉ cstr m 0) → ("|"%char ∉ cstr m 0) →
  length (cstr m 0) < length m → status ≠ 0%Z →
  msh_split_line m 0 = Some (tokens, m') →
  msh_loop_segments (length m) m 0 0 status w = msh_execute (argv_of m' tokens) w.
Proof.
  intros Hne Hamp Hbar Hlen Hstatus Hsplit.
  destruct (cstr_of_split (drop 0 m)) as (rest & Hm & Hs & Hr).
  fold (cstr m 0) in Hm, Hs. rewrite drop_0 in Hm. set (s := cstr m 0) in *.
  assert (Htok : strtok_r m 0 ["&"%char] = (Some 0, length s, m)).
  { pose proof (strtok_r_whole s rest ["&"%char] Hs Hr Hne) as Hw.
    rewrite <- Hm in Hw. apply Hw.
    apply Forall_forall. intros c Hc Hin. apply list_elem_of_singleton in Hin.
    by subst c. }
  destruct (length m) as [|[|fuel]] eqn:Hfuel;
    [lia|destruct s; [done|simpl in Hlen; lia]|].
  cbn [msh_loop_segments]. rewrite Htok. cbn beta iota.
  rewrite decide_False by done.
  unfold msh_loop_body.
  assert (Hflag : strchr m 0 "|" = false) by (by apply bool_decide_eq_false).
  rewrite Hflag, Hsplit. unfold bind at 1 2.
  destruct (msh_execute (argv_of m' tokens) w) as [[status'| | | |] w'] eqn:Hrun;
    try done.
  unfold ret at 1. cbn [fst snd].
  destruct (msh_split_line_spec m 0) as (ptrs & m2 & Hspec & _ & _ & _ & _ & Hframe).
  rewrite Hsplit in Hspec. injection Hspec as _ <-.
  rewrite strtok_r_end; [done|].
  rewrite (Hframe (length s)) by (fold s; lia).
  pose proof (drop_app_length s rest) as Hdrop. rewrite <- Hm in Hdrop.
  by rewrite Hdrop.
Qed.

(** ** The read-eval loop, line by line *)

(** With [status] zero when a line is read, the guard of the segment loop
    fails at once (or the line has no segment): nothing is run, and the
    outer guard ends the loop. *)
Lemma msh_loop_status_zero (l : string) (stdin : list string) (w : world) :
  msh_loop (l :: stdin) 0 w = (Ret tt, emit (EStdout "$ ") w).
Proof.
  cbn [msh_loop]. unfold bind at 1. unfold printf, log. unfold bind.
  rewrite line_buffer_length. cbn [msh_loop_segments].
  by destruct (strtok_r (line_buffer l) 0 ["&"%char]) as [[[token|] line'] m1].
Qed.

(** X15.  A non-empty line that holds neither ["&"] nor ["|"], read while
    [status] is not zero, is run as one command, the way the loop worked
    before segments and pipes were added: the whole line is tokenized, the
    dispatcher is called once on its tokens, and the loop goes on to the
    next line unless the dispatcher answered [0].  Read while [status] is
    zero, which only the uninitialised first read allows, the line runs
    nothing and the loop ends after the prompt. *)
Theorem msh_loop_single_command (l : string) (stdin : list string) (status : Z)
  (w : world) (tokens : list (option ptr)) (m' : buffer) :
  cstr (line_buffer l) 0 ≠ [] →
  ("&"%char ∉ cstr (line_buffer l) 0) → ("|"%char ∉ cstr (line_buffer l) 0) →
  msh_split_line (line_buffer l) 0 = Some (tokens, m') →
  msh_loop (l :: stdin) status w
  = if decide (status = 0%Z) then (Ret tt, emit (EStdout "$ ") w)
    else (status' <- msh_execute (argv_of m' tokens) ;;
          if decide (status' = 0%Z) then ret tt else msh_loop stdin status')
           (emit (EStdout "$ ") w).
Proof.
  intros Hne Hamp Hbar Hsplit.
  destruct (decide (status = 0%Z)) as [->|Hstatus]; [apply msh_loop_status_zero|].
  cbn [msh_loop]. unfold bind at 1. unfold printf, log. unfold bind.
  by rewrite (msh_loop_segments_single _ _ _ tokens m')
    by (done || apply line_buffer_cstr).
Qed.

Lemma msh_loop_single_command_witness :
  (cstr (line_buffer "cd /tmp") 0 ≠ []
   ∧ ("&"%char ∉ cstr (line_buffer "cd /tmp") 0)
   ∧ ("|"%char ∉ cstr (line_buffer "cd /tmp") 0)
   ∧ msh_split_line (line_buffer "cd /tmp") 0
     = Some ([Some 0; Some 3; None], <[2 := NUL]> (line_buffer "cd /tmp")))
  ∧ msh_loop ["cd /tmp"; "pwd"] 1 (w0 [])
    = if decide (1%Z = 0%Z) then (Ret tt, emit (EStdout "$ ") (w0 []))
      else (status' <- msh_execute
                         (argv_of (<[2 := NUL]> (line_buffer "cd /tmp"))
                            [Some 0; Some 3; None]) ;;
            if decide (status' = 0%Z) then ret tt else msh_loop ["pwd"] status')
             (emit (EStdout "$ ") (w0 [])).
Proof.
  split; [split_and!; [done|compute_done|compute_done|reflexivity]|].
  apply (msh_loop_single_command "cd /tmp" ["pwd"] 1 (w0 []));
    [done|compute_done|compute_done|reflexivity].
Defined.

Lemma line_buffer_cstr_eq (l : string) :
  (NUL ∉ String.list_ascii_of_string l) →
  cstr (line_buffer l) 0 = String.list_ascii_of_string l.
Proof. intros Hl. by apply (cstr_at [] _ [NUL]). Qed.

Lemma delims_free (s : list ascii) (c : ascii) :
  Forall is_delim s → ¬ is_delim c → c ∉ s.
Proof.
  intros Hs Hc Hin. rewrite Forall_forall in Hs. by apply Hc, Hs.
Qed.

(** X16.  A line made only of blanks (space, tab, carriage return, bell),
    read while [status] is not zero, runs nothing: after the prompt the loop
    goes straight to the next line.  [status] keeps its value on the empty
    line and becomes [1] on any other blank line.  Read while [status] is
    zero, which only the uninitialised first read allows, the loop ends
    after the prompt. *)
Theorem msh_loop_blank_line (l : string) (stdin : list string) (status : Z) (w : world) :
  Forall is_delim (String.list_ascii_of_string l) →
  msh_loop (l :: stdin) status w
  = if decide (status = 0%Z) then (Ret tt, emit (EStdout "$ ") w)
    else msh_loop stdin (if decide (l = "") then status else 1%Z)
           (emit (EStdout "$ ") w).
Proof.
  intros Hblank.
  destruct (decide (status = 0%Z)) as [->|Hstatus]; [apply msh_loop_status_zero|].
  assert (Hc : cstr (line_buffer l) 0 = String.list_ascii_of_string l).
  { apply line_buffer_cstr_eq, delims_free; [done|]. compute_done. }
  cbn [msh_loop]. unfold bind at 1. unfold printf, log. unfold bind.
  destruct (decide (l = "")) as [->|Hl].
  - change (msh_loop_segments (length (line_buffer "")) (line_buffer "") 0 0 status
              (emit (EStdout "$ ") w))
      with (Ret status, emit (EStdout "$ ") w).
    cbn beta iota. by rewrite decide_False.
  - destruct (msh_split_line_spec (line_buffer l) 0)
      as (ptrs & m' & Hsplit & _ & Htok & _).
    rewrite Hc in Htok. apply tokens_of_runs in Htok.
    rewrite <- (app_nil_r (String.list_ascii_of_string _)), runs_delims in Htok by done.
    destruct ptrs; [|done].
    rewrite (msh_loop_segments_single _ _ _ [None] m' );
      [done| | | | |done|done].
    + rewrite Hc. by destruct l.
    + rewrite Hc. apply delims_free; [done|compute_done].
    + rewrite Hc. apply delims_free; [done|compute_done].
    + apply line_buffer_cstr.
Qed.

Lemma msh_loop_blank_line_witness :
  Forall is_delim (String.list_ascii_of_string "   ")
  ∧ msh_loop ["   "; "pwd"] 7 (w0 [])
    = if decide (7%Z = 0%Z) then (Ret tt, emit (EStdout "$ ") (w0 []))
      else msh_loop ["pwd"] (if decide ("   " = "") then 7%Z else 1%Z)
             (emit (EStdout "$ ") (w0 [])).
Proof.
  split; [repeat constructor; compute_done|].
  apply (msh_loop_blank_line "   " ["pwd"] 7 (w0 [])); repeat constructor; compute_done.
Defined.

Lemma msh_loop_segments_status (fuel : nat) (m : buffer) (line : ptr) (s s' : Z)
  (w : world) :
  s ≠ 0%Z → s' ≠ 0%Z →
  msh_loop_segments fuel m line 0 s w = msh_loop_segments fuel m line 0 s' w
  ∨ (msh_loop_segments fuel m line 0 s w = (Ret s, w)
     ∧ msh_loop_segments fuel m line 0 s' w = (Ret s', w)).
Proof.
  intros Hs Hs'. destruct fuel as [|fuel]; [by left|].
  cbn [msh_loop_segments].
  destruct (strtok_r m line ["&"%char]) as [[[token|] line'] m1]; [|by right].
  left. by rewrite !decide_False by done.
Qed.

(** X17.  Only whether [status] is zero matters to the loop: started with
    any two non-zero values (the variable is not initialised, and lines
    without a segment leave it as it is), the shell behaves the same on
    every input. *)
Theorem msh_loop_status_value (stdin : list string) (s s' : Z) (w : world) :
  s ≠ 0%Z → s' ≠ 0%Z → msh_loop stdin s w = msh_loop stdin s' w.
Proof.
  revert s s' w. induction stdin as [|l stdin IH]; intros s s' w Hs Hs'; [done|].
  cbn [msh_loop]. unfold bind at 1 3. unfold printf, log. unfold bind.
  destruct (msh_loop_segments_status (length (line_buffer l)) (line_buffer l) 0 s s'
              (emit (EStdout "$ ") w) Hs Hs') as [->|[-> ->]]; [done|].
  rewrite !decide_False by done. by apply IH.
Qed.

Lemma msh_loop_status_value_witness :
  (1%Z ≠ 0%Z ∧ (-3)%Z ≠ 0%Z)
  ∧ msh_loop [""; "pwd"; "exit"; "pwd"] 1 (w0 [])
    = msh_loop [""; "pwd"; "exit"; "pwd"] (-3) (w0 []).
Proof.
  split; [done|].
  by apply (msh_loop_status_value [""; "pwd"; "exit"; "pwd"] 1 (-3) (w0 [])).
Defined.

(** ** Builtins, composed *)



(** ** What the tokenizer hands to the launchers *)

(** X19.  No argument the tokenizer yields is empty or the lone newline
    ["\n"]: the value [msh_pipe] uses to mean that nothing has been joined yet
    can never be mistaken for a real argument. *)
Theorem msh_split_line_argv_clean (m : buffer) (line : ptr)
  (tokens : list (option ptr)) (m' : buffer) :
  msh_split_line m line = Some (tokens, m') →
  (LF ∉ argv_of m' tokens) ∧ ("" ∉ argv_of m' tokens).
Proof.
  intros Hsplit.
  destruct (msh_split_line_spec m line) as (ptrs & m2 & Hspec & _ & Htok & _).
  rewrite Hsplit in Hspec. injection Hspec as -> <-.
  apply tokens_of_nonempty in Htok. rewrite argv_of_tokens.
  rewrite Forall_forall in Htok.
  split; intros Hin; apply list_elem_of_fmap in Hin as (p & Heq & Hp);
    specialize (Htok (cstr m' p) ltac:(by apply list_elem_of_fmap_2));
    destruct Htok as [Hne Hfree];
    apply (f_equal String.list_ascii_of_string) in Heq;
    rewrite String.list_ascii_of_string_of_list_ascii in Heq.
  - rewrite <- Heq in Hfree. apply Forall_cons in Hfree as [Hc _].
    apply Hc. compute_done.
  - by rewrite <- Heq in Hne.
Qed.

Lemma msh_split_line_argv_clean_witness :
  msh_split_line (line_buffer "ls  -l") 0
  = Some ([Some 0; Some 4; None], <[2 := NUL]> (line_buffer "ls  -l"))
  ∧ (LF ∉ argv_of (<[2 := NUL]> (line_buffer "ls  -l")) [Some 0; Some 4; None])
  ∧ ("" ∉ argv_of (<[2 := NUL]> (line_buffer "ls  -l")) [Some 0; Some 4; None]).
Proof.
  split; [reflexivity|].
  apply (msh_split_line_argv_clean (line_buffer "ls  -l") 0). reflexivity.
Defined.

(** X20.  [msh_execute] is never undefined: its test of [args[0]] keeps
    the NULL of an empty vector away from [strcmp] and [execvp], and no
    builtin reads past the arguments it has. *)
Theorem msh_execute_defined (args : list string) (w : world) :
  (msh_execute args w).1 ≠ Undef.
Proof.
  unfold msh_execute. destruct (args !! 0) as [arg0|] eqn:Hargs; [|done].
  cbn [builtin_str builtin_func msh_execute_for].
  destruct (decide (arg0 = "cd")) as [->|Hcd].
  { by destruct (msh_cd_in_process args w) as (w' & evs & -> & _). }
  destruct (decide (arg0 = "help")) as [->|Hhelp].
  { by destruct (msh_help_in_process args w) as (w' & evs & -> & _). }
  destruct (decide (arg0 = "exit")) as [->|Hexit].
  { by destruct (msh_exit_in_process args w) as (w' & evs & -> & _). }
  destruct (decide (arg0 = "pwd")) as [->|Hpwd].
  { by destruct (msh_pwd_in_process args w) as (w' & evs & -> & _). }
  unfold msh_launch, bind. destruct (fork_head w) as (w1 & -> & _).
  case_decide.
  - rewrite Hargs. unfold defined, ret, execvp, exec, bind.
    destruct (answer_head w1) as (w2 & -> & _). by case_decide.
  - case_decide; [done|].
    by destruct (msh_launch_wait_returns (S (length (kernel w1))) (hd 0%Z (kernel w)) w1)
      as [w' ->]; [lia|].
Qed.

Lemma msh_launch_exec_fails_witness :
  ((["nosuch"; "-x"] : list string) !! 0 = Some "nosuch"
   ∧ kernel (w0 [0; -1; 9]%Z) = [0; -1; 9]%Z ∧ (-1)%Z ≠ 0%Z)
  ∧ msh_launch ["nosuch"; "-x"] (w0 [0; -1; 9]%Z)
    = (Exit EXIT_FAILURE,
       World [9%Z] (dirs (w0 [0; -1; 9]%Z)) (cwd (w0 [0; -1; 9]%Z))
         (trace (w0 [0; -1; 9]%Z)
          ++ [EFork 0; EExec "nosuch" ["nosuch"; "-x"] (-1); EPerror "msh"])).
Proof.
  split; [split_and!; done|].
  by apply (msh_launch_exec_fails ["nosuch"; "-x"] "nosuch" (w0 [0; -1; 9]%Z) (-1) [9%Z]).
Defined.
